(** * CarVisualizer3D: AR placement and touch gestures (src/main.js)

    A shallow embedding of the interaction code of [src/main.js]: the
    per-frame hit-test/reticle update in [render], the [onSelect] placement
    handler, the [touchstart]/[touchmove] gesture handlers and the session
    end listener.  [src/unnamed/part_000] is an earlier variant of the same
    file: its [render] and [onSelect] are identical, its touch handlers are
    the pinch branches alone ([Part000] below).

    The model clean-up and the colour buttons of [init]/[setupUIControls]
    work on the scene graph of the loaded model ([Node] below), and
    [src/inspect_gltf.cjs] on a parsed glTF JSON value ([json] below).

    JS numbers are IEEE binary64, modelled with the kernel's primitive
    floats.  The module-level [let] variables of the source become fields of
    one [State] record; every event handler is a function on it. *)

From Stdlib Require Import Floats List Bool Arith Lia.
From Stdlib Require Import Strings.String Strings.Ascii.
Import ListNotations.

Set Warnings "-inexact-float -register-all".

(** ** Three.js values *)

Record Vector3 := mkVector3 { vx : float; vy : float; vz : float }.

(** [Euler] in its default order 'XYZ'; [ey] is the yaw. *)
Record Euler := mkEuler { ex : float; ey : float; ez : float }.

Record Quaternion := mkQuaternion { qx : float; qy : float; qz : float; qw : float }.

(** [Matrix4.elements]: 16 numbers in column-major order. *)
Definition Matrix4 := list float.

Definition identity4 : Matrix4 :=
  [1; 0; 0; 0;  0; 1; 0; 0;  0; 0; 1; 0;  0; 0; 0; 1]%float.

(** [Vector3.setFromMatrixPosition]: elements 12, 13 and 14. *)
Definition setFromMatrixPosition (m : Matrix4) : Vector3 :=
  mkVector3 (nth 12 m 0%float) (nth 13 m 0%float) (nth 14 m 0%float).

(** [Vector3.multiplyScalar]. *)
Definition multiplyScalar (v : Vector3) (s : float) : Vector3 :=
  mkVector3 (vx v * s)%float (vy v * s)%float (vz v * s)%float.

(** [Vector3.setScalar]. *)
Definition setScalar (s : float) : Vector3 := mkVector3 s s s.

(** The fields of an [Object3D] the handlers read or write. *)
Record Object3D := mkObject3D {
  position : Vector3;
  quaternion : Quaternion;
  rotation : Euler;
  scale : Vector3 }.

(** [Touch.pageX], [Touch.pageY]; [e.touches] is a list of them. *)
Record Touch := mkTouch { pageX : float; pageY : float }.

(** The reticle mesh has [matrixAutoUpdate = false]: its pose is its
    [matrix]. *)
Record Reticle := mkReticle { visible : bool; matrix : Matrix4 }.

(** ** The WebXR runtime *)

(** An [XRHitTestSource], known by the session that created it. *)
Record XRHitTestSource := mkSource { source_session : nat }.

(** An [XRHitTestResult], by [hit.getPose(referenceSpace).transform.matrix],
    its pose in the renderer's reference space. *)
Record XRHitTestResult := mkHit { pose_matrix : Matrix4 }.

(** Outstanding promises of a session: [requestReferenceSpace('viewer')] and
    [requestHitTestSource(...)]. *)
Inductive XRPromise :=
| RefSpaceRequest (sid : nat)
| HitTestSourceRequest (sid : nat).

Definition promise_session (p : XRPromise) : nat :=
  match p with RefSpaceRequest s | HitTestSourceRequest s => s end.

(** Sessions are numbered in the order they start; [end_listeners] lists the
    sessions on which [render] registered its 'end' listener (once per
    registration). *)
Record XRSystem := mkXR {
  session : option nat;
  next_session : nat;
  end_listeners : list nat;
  pending : list XRPromise }.

(** ** Application state *)

(** The closure variables of [init]'s touch handlers. *)
Record TouchState := mkTouchState {
  initialDistance : float;
  initialScale : Vector3;
  previousTouchX : float }.

(** Observations: the session of every acquisition request issued by
    [render], and every [frame.getHitTestResults(source)] call as the pair
    (session of the frame, source queried). *)
Record Observed := mkObserved {
  requests : list nat;
  queries : list (nat * XRHitTestSource) }.

Record State := mkState {
  xr : XRSystem;
  hitTestSource : option XRHitTestSource;
  hitTestSourceRequested : bool;
  reticle : Reticle;
  carModel : option Object3D;
  touch : TouchState;
  observed : Observed }.

(** The state after the module body and [init()]. *)
Definition init_state : State :=
  mkState (mkXR None 0 [] []) None false (mkReticle false identity4) None
    (mkTouchState 0%float (mkVector3 0 0 0)%float 0%float) (mkObserved [] []).

Definition set_xr (st : State) (x : XRSystem) : State :=
  mkState x (hitTestSource st) (hitTestSourceRequested st) (reticle st)
    (carModel st) (touch st) (observed st).

Definition set_hitTestSource (st : State) (v : option XRHitTestSource) : State :=
  mkState (xr st) v (hitTestSourceRequested st) (reticle st)
    (carModel st) (touch st) (observed st).

Definition set_hitTestSourceRequested (st : State) (b : bool) : State :=
  mkState (xr st) (hitTestSource st) b (reticle st)
    (carModel st) (touch st) (observed st).

Definition set_reticle (st : State) (r : Reticle) : State :=
  mkState (xr st) (hitTestSource st) (hitTestSourceRequested st) r
    (carModel st) (touch st) (observed st).

Definition set_carModel (st : State) (o : option Object3D) : State :=
  mkState (xr st) (hitTestSource st) (hitTestSourceRequested st) (reticle st)
    o (touch st) (observed st).

Definition set_touch (st : State) (t : TouchState) : State :=
  mkState (xr st) (hitTestSource st) (hitTestSourceRequested st) (reticle st)
    (carModel st) t (observed st).

Definition set_observed (st : State) (ob : Observed) : State :=
  mkState (xr st) (hitTestSource st) (hitTestSourceRequested st) (reticle st)
    (carModel st) (touch st) ob.

Definition remove_nth {A} (n : nat) (l : list A) : list A :=
  firstn n l ++ skipn (S n) l.

(** ** Handlers *)

Section Handlers.

(** Three.js' own rotation conversions, left abstract:
    [Quaternion.setFromRotationMatrix], [Euler.setFromQuaternion] (run by a
    quaternion's change callback on [object.rotation]) and
    [Quaternion.setFromEuler] (run by a rotation's change callback on
    [object.quaternion]). *)
Variable quaternion_of_rotation_matrix : Matrix4 -> Quaternion.
Variable euler_of_quaternion : Quaternion -> Euler.
Variable quaternion_of_euler : Euler -> Quaternion.

(** [object.position.setFromMatrixPosition(m);
     object.quaternion.setFromRotationMatrix(m)]. *)
Definition place_at (o : Object3D) (m : Matrix4) : Object3D :=
  let q := quaternion_of_rotation_matrix m in
  mkObject3D (setFromMatrixPosition m) q (euler_of_quaternion q) (scale o).

(** [object.rotation.y = v]. *)
Definition set_rotation_y (o : Object3D) (v : float) : Object3D :=
  let r := mkEuler (ex (rotation o)) v (ez (rotation o)) in
  mkObject3D (position o) (quaternion_of_euler r) r (scale o).

(** [object.scale.copy(v)]. *)
Definition set_scale (o : Object3D) (v : Vector3) : Object3D :=
  mkObject3D (position o) (quaternion o) (rotation o) v.

(** [onSelect] (main.js 357-365). *)
Definition onSelect (st : State) : State :=
  match visible (reticle st), carModel st with
  | true, Some o => set_carModel st (Some (place_at o (matrix (reticle st))))
  | _, _ => st
  end.

(** [Math.sqrt(dx * dx + dy * dy)] for [e.touches[0]], [e.touches[1]]. *)
Definition touch_distance (t0 t1 : Touch) : float :=
  let dx := (pageX t0 - pageX t1)%float in
  let dy := (pageY t0 - pageY t1)%float in
  PrimFloat.sqrt (dx * dx + dy * dy)%float.

(** The pinch branch of the 'touchstart' listener (main.js 234-240). *)
Definition pinch_start (touches : list Touch) (st : State) : State :=
  match touches, carModel st with
  | [t0; t1], Some o =>
      set_touch st (mkTouchState (touch_distance t0 t1) (scale o)
                      (previousTouchX (touch st)))
  | _, _ => st
  end.

(** The rotate branch of the 'touchstart' listener (main.js 241-244). *)
Definition rotate_start (touches : list Touch) (st : State) : State :=
  match touches, carModel st with
  | [t0], Some _ =>
      set_touch st (mkTouchState (initialDistance (touch st))
                      (initialScale (touch st)) (pageX t0))
  | _, _ => st
  end.

Definition touchstart (touches : list Touch) (st : State) : State :=
  rotate_start touches (pinch_start touches st).

(** The pinch branch of the 'touchmove' listener (main.js 248-257). *)
Definition pinch_move (touches : list Touch) (st : State) : State :=
  match touches, carModel st with
  | [t0; t1], Some o =>
      if PrimFloat.ltb 0 (initialDistance (touch st)) then
        let currentDistance := touch_distance t0 t1 in
        let scaleFactor := (currentDistance / initialDistance (touch st))%float in
        let newScale := multiplyScalar (initialScale (touch st)) scaleFactor in
        set_carModel st (Some (set_scale o newScale))
      else st
  | _, _ => st
  end.

(** The rotate branch of the 'touchmove' listener (main.js 259-265). *)
Definition rotate_move (touches : list Touch) (st : State) : State :=
  match touches, carModel st with
  | [t0], Some o =>
      let deltaX := (pageX t0 - previousTouchX (touch st))%float in
      let st1 := set_touch st (mkTouchState (initialDistance (touch st))
                                 (initialScale (touch st)) (pageX t0)) in
      set_carModel st1
        (Some (set_rotation_y o (ey (rotation o) + deltaX * 0.005)%float))
  | _, _ => st
  end.

Definition touchmove (touches : list Touch) (st : State) : State :=
  rotate_move touches (pinch_move touches st).

(** The rotateLeft / rotateRight buttons: [carModel.rotation.y += 0.3] or
    [-= 0.3]. *)
Definition rotate_button (left : bool) (st : State) : State :=
  match carModel st with
  | Some o =>
      let y := ey (rotation o) in
      set_carModel st (Some (set_rotation_y o
        (if left then y + 0.3 else y - 0.3)%float))
  | None => st
  end.

End Handlers.

(** The loader callback: [carModel = gltf.scene; carModel.scale.setScalar(10)]
    (the clean-up of child nodes touches no field modelled here). *)
Definition onModelLoaded (scene : Object3D) (st : State) : State :=
  set_carModel st (Some (mkObject3D (position scene) (quaternion scene)
                           (rotation scene) (setScalar 10%float))).

(** The block of [render] guarded by [hitTestSourceRequested === false]
    (main.js 383-394), in a frame of session [s]:
    [session.requestReferenceSpace('viewer').then(...)],
    [session.addEventListener('end', ...)], [hitTestSourceRequested = true]. *)
Definition request_hit_test_source (s : nat) (st : State) : State :=
  let x := xr st in
  let st1 := set_xr st (mkXR (session x) (next_session x)
                          (end_listeners x ++ [s])
                          (pending x ++ [RefSpaceRequest s])) in
  let st2 := set_observed st1 (mkObserved (requests (observed st1) ++ [s])
                                 (queries (observed st1))) in
  set_hitTestSourceRequested st2 true.

(** The 'end' listener registered by [render]. *)
Definition on_session_end (st : State) : State :=
  set_hitTestSource (set_hitTestSourceRequested st false) None.

(** The [if (hitTestSource)] block of [render] (main.js 396-405), in a
    frame of session [s] whose [frame.getHitTestResults(hitTestSource)] is
    [results]. *)
Definition update_reticle (s : nat) (results : list XRHitTestResult)
    (st : State) : State :=
  match hitTestSource st with
  | Some src =>
      let st2 := set_observed st (mkObserved (requests (observed st))
                                    (queries (observed st) ++ [(s, src)])) in
      match results with
      | hit :: _ => set_reticle st2 (mkReticle true (pose_matrix hit))
      | [] => set_reticle st2 (mkReticle false (matrix (reticle st2)))
      end
  | None => st
  end.

(** [render(timestamp, frame)] with an XR frame of session [s]
    (main.js 379-406). *)
Definition render_xr (s : nat) (results : list XRHitTestResult) (st : State)
  : State :=
  let st1 := if Bool.eqb (hitTestSourceRequested st) false
             then request_hit_test_source s st else st in
  update_reticle s results st1.

(** The runtime settles the [n]-th outstanding promise with a value.  The
    [requestReferenceSpace] callback calls [session.requestHitTestSource] on
    the session it captured, which rejects at once when that session is no
    longer the running one; the [requestHitTestSource] callback stores the
    source: [hitTestSource = source]. *)
Definition promise_resolved (n : nat) (st : State) : State :=
  match nth_error (pending (xr st)) n with
  | None => st
  | Some p =>
      let x := xr st in
      let st1 := set_xr st (mkXR (session x) (next_session x) (end_listeners x)
                              (remove_nth n (pending x))) in
      match p with
      | RefSpaceRequest s =>
          match session x with
          | Some s' =>
              if Nat.eqb s s'
              then set_xr st1 (mkXR (session x) (next_session x) (end_listeners x)
                                 (remove_nth n (pending x) ++ [HitTestSourceRequest s]))
              else st1
          | None => st1
          end
      | HitTestSourceRequest s => set_hitTestSource st1 (Some (mkSource s))
      end
  end.

(** The runtime rejects the [n]-th outstanding promise; the source attaches
    no rejection handler. *)
Definition promise_rejected (n : nat) (st : State) : State :=
  let x := xr st in
  set_xr st (mkXR (session x) (next_session x) (end_listeners x)
               (remove_nth n (pending x))).

(** A new immersive session ([ARButton] -> [renderer.xr.setSession]); only
    one runs at a time. *)
Definition session_started (st : State) : State :=
  let x := xr st in
  match session x with
  | None => set_xr st (mkXR (Some (next_session x)) (S (next_session x))
                         (end_listeners x) (pending x))
  | Some _ => st
  end.

(** Session shutdown (WebXR): the outstanding promises of the session are
    rejected, the session stops, and its 'end' event runs the listeners
    registered on it. *)
Definition session_ended (st : State) : State :=
  let x := xr st in
  match session x with
  | None => st
  | Some s =>
      let st1 := set_xr st (mkXR None (next_session x) (end_listeners x)
                   (filter (fun p => negb (Nat.eqb (promise_session p) s))
                      (pending x))) in
      if existsb (Nat.eqb s) (end_listeners x) then on_session_end st1 else st1
  end.

Inductive Event :=
| SessionStart
| SessionEnd
| XRFrame (results : list XRHitTestResult)
| PromiseResolved (n : nat)
| PromiseRejected (n : nat)
| Select
| TouchStart (touches : list Touch)
| TouchMove (touches : list Touch)
| TouchEnd (touches : list Touch)
| RotateButton (to_left : bool)
| ModelLoaded (scene : Object3D).

Section Run.

Variable quaternion_of_rotation_matrix : Matrix4 -> Quaternion.
Variable euler_of_quaternion : Quaternion -> Euler.
Variable quaternion_of_euler : Euler -> Quaternion.

(** One event.  An XR frame is delivered only while a session runs
    ([render] with [frame] undefined changes nothing modelled here);
    'touchend' has no listener. *)
Definition step (st : State) (ev : Event) : State :=
  match ev with
  | SessionStart => session_started st
  | SessionEnd => session_ended st
  | XRFrame results =>
      match session (xr st) with
      | Some s => render_xr s results st
      | None => st
      end
  | PromiseResolved n => promise_resolved n st
  | PromiseRejected n => promise_rejected n st
  | Select => onSelect quaternion_of_rotation_matrix euler_of_quaternion st
  | TouchStart ts => touchstart ts st
  | TouchMove ts => touchmove quaternion_of_euler ts st
  | TouchEnd _ => st
  | RotateButton to_left => rotate_button quaternion_of_euler to_left st
  | ModelLoaded scene => onModelLoaded scene st
  end.

Definition run (st : State) (evs : list Event) : State := fold_left step evs st.

(** The result list of the most recent frame, among [evs] run from [st], that
    queried a hit-test source ([acc] when there is none). *)
Fixpoint last_hit_frame (st : State) (evs : list Event)
    (acc : option (list XRHitTestResult)) : option (list XRHitTestResult) :=
  match evs with
  | [] => acc
  | ev :: evs' =>
      let acc' := match ev, session (xr st), hitTestSource st with
                  | XRFrame rs, Some _, Some _ => Some rs
                  | _, _, _ => acc
                  end in
      last_hit_frame (step st ev) evs' acc'
  end.

End Run.

(** ** The loaded scene graph *)

(** A material: [mat.color] present (the value last given to
    [color.set]) or absent. *)
Record Material := mkMaterial { mat_color : option string }.

(** [child.material]: absent (null or undefined), one material, or an
    array of them. *)
Inductive MaterialSlot :=
| NoMaterial
| SingleMaterial (m : Material)
| MaterialArray (ms : list Material).

(** A node of [gltf.scene] as [traverse] sees it: [node_id] stands for the
    object's identity.  Names are ASCII strings. *)
Inductive Node :=
| mkNode (node_id : nat) (name : string) (pos_y : float) (isMesh : bool)
    (castShadow receiveShadow : bool) (material : MaterialSlot)
    (children : list Node).

Definition node_id (n : Node) : nat :=
  match n with mkNode i _ _ _ _ _ _ _ => i end.
Definition node_name (n : Node) : string :=
  match n with mkNode _ nm _ _ _ _ _ _ => nm end.
Definition node_pos_y (n : Node) : float :=
  match n with mkNode _ _ y _ _ _ _ _ => y end.
Definition node_isMesh (n : Node) : bool :=
  match n with mkNode _ _ _ m _ _ _ _ => m end.
Definition node_castShadow (n : Node) : bool :=
  match n with mkNode _ _ _ _ c _ _ _ => c end.
Definition node_receiveShadow (n : Node) : bool :=
  match n with mkNode _ _ _ _ _ r _ _ => r end.
Definition node_children (n : Node) : list Node :=
  match n with mkNode _ _ _ _ _ _ _ ks => ks end.

(** [n.traverse]: the node, then its children's subtrees, in order. *)
Fixpoint all_nodes (n : Node) : list Node :=
  n :: flat_map all_nodes (node_children n).

(** Every node below [n]. *)
Definition descendants (n : Node) : list Node :=
  flat_map all_nodes (node_children n).

(** ** Strings *)

(** The case folding of a regular expression with the [i] flag, on ASCII
    letters. *)
Definition ascii_upper (c : ascii) : ascii :=
  let n := nat_of_ascii c in
  if (97 <=? n) && (n <=? 122) then ascii_of_nat (n - 32) else c.

Fixpoint starts_with (eqc : ascii -> ascii -> bool) (p s : string) : bool :=
  match p, s with
  | EmptyString, _ => true
  | String a p', String b s' => eqc a b && starts_with eqc p' s'
  | String _ _, EmptyString => false
  end.

(** Whether [p] occurs in [s], characters compared by [eqc]. *)
Fixpoint occurs_in (eqc : ascii -> ascii -> bool) (s p : string) : bool :=
  starts_with eqc p s
  || match s with
     | EmptyString => false
     | String _ s' => occurs_in eqc s' p
     end.

(** [s.includes(p)]. *)
Definition includes (s p : string) : bool := occurs_in Ascii.eqb s p.

(** [s.match(/Text/i)] is non-null. *)
Definition matches_Text_i (s : string) : bool :=
  occurs_in (fun a b => Ascii.eqb (ascii_upper a) (ascii_upper b)) s "Text".

(** ** Model clean-up (main.js 106-146) *)

(** The [traverse] callback on one node: whether it is pushed to [toRemove],
    and its [castShadow], [receiveShadow] afterwards. *)
Definition cleanup_visit (nm : string) (y : float) (mesh cast receive : bool)
  : bool * (bool * bool) :=
  if matches_Text_i nm then (true, (cast, receive)) else
  let removed_by_name :=
    if includes nm "ground_shadow" || includes nm "Plane"
    then includes nm "ground_shadow" else false in
  if removed_by_name then (true, (cast, receive)) else
  if PrimFloat.ltb 50 y || PrimFloat.ltb y (-50) then (true, (cast, receive)) else
  if mesh then (false, (true, true)) else (false, (cast, receive)).

Section Traverse.

Variable visit : string -> float -> bool -> bool -> bool -> bool * (bool * bool).

(** [carModel.traverse(callback)]: the scene with the callback's shadow
    updates, and [toRemove] (node identities, in visiting order). *)
Fixpoint cleanup_traverse (n : Node) : Node * list nat :=
  match n with
  | mkNode i nm y mesh cs rs mt ks =>
      let '(push, (cs', rs')) := visit nm y mesh cs rs in
      let visited := map cleanup_traverse ks in
      (mkNode i nm y mesh cs' rs' mt (map fst visited),
       (if push then [i] else []) ++ flat_map snd visited)
  end.

End Traverse.

(** [if (child.parent) child.parent.remove(child)] for the node [id]: it
    leaves the child list of its parent; the root has no parent. *)
Fixpoint remove_from_parent (id : nat) (n : Node) : Node :=
  match n with
  | mkNode i nm y mesh cs rs mt ks =>
      mkNode i nm y mesh cs rs mt
        (filter (fun k => negb (Nat.eqb (node_id k) id))
           (map (remove_from_parent id) ks))
  end.

(** The clean-up of the loader callback: traverse, then remove every node of
    [toRemove] in order. *)
Definition cleanup_with visit (root : Node) : Node :=
  let '(root', toRemove) := cleanup_traverse visit root in
  fold_left (fun t id => remove_from_parent id t) toRemove root'.

Definition cleanup_model (root : Node) : Node := cleanup_with cleanup_visit root.

(** The earlier variant [src/unnamed/part_000]: touch listeners with the
    pinch branches alone (164-188), and a clean-up without the
    'ground_shadow' rule (69-91). *)
Module Part000.

Definition touchstart (touches : list Touch) (st : State) : State :=
  pinch_start touches st.

Definition touchmove (touches : list Touch) (st : State) : State :=
  pinch_move touches st.

Definition cleanup_visit (nm : string) (y : float) (mesh cast receive : bool)
  : bool * (bool * bool) :=
  if matches_Text_i nm then (true, (cast, receive)) else
  if PrimFloat.ltb 50 y || PrimFloat.ltb y (-50) then (true, (cast, receive)) else
  if mesh then (false, (true, true)) else (false, (cast, receive)).

Definition cleanup_model (root : Node) : Node := cleanup_with cleanup_visit root.

End Part000.

(** ** Colour buttons (main.js 285-314) *)

(** [mat.color.set(color)] when [mat.color] is present. *)
Definition recolor_material (c : string) (m : Material) : Material :=
  match mat_color m with
  | Some _ => mkMaterial (Some c)
  | None => m
  end.

Definition recolor_slot (c : string) (slot : MaterialSlot) : MaterialSlot :=
  match slot with
  | NoMaterial => NoMaterial
  | SingleMaterial m => SingleMaterial (recolor_material c m)
  | MaterialArray ms => MaterialArray (map (recolor_material c) ms)
  end.

(** [carModel.traverse(...)] of the click handler: the materials of every
    mesh. *)
Fixpoint recolor (c : string) (n : Node) : Node :=
  match n with
  | mkNode i nm y mesh cs rs mt ks =>
      mkNode i nm y mesh cs rs (if mesh then recolor_slot c mt else mt)
        (map (recolor c) ks)
  end.

(** A [.color-btn] element: its [data-color] and whether its class list
    holds 'active'. *)
Record ColorButton := mkColorButton { data_color : string; active : bool }.

(** The buttons and the car's scene graph ([carModel], null before the
    load); the colour-name label is not modelled. *)
Record Page := mkPage { color_buttons : list ColorButton; car_scene : option Node }.

(** A click on the [i]-th colour button (there is no button out of range:
    such a click changes nothing). *)
Definition color_click (i : nat) (p : Page) : Page :=
  match nth_error (color_buttons p) i with
  | None => p
  | Some btn =>
      let color := data_color btn in
      let cleared := map (fun b => mkColorButton (data_color b) false)
                       (color_buttons p) in
      let bs := firstn i cleared ++ [mkColorButton color true]
                ++ skipn (S i) cleared in
      mkPage bs (option_map (recolor color) (car_scene p))
  end.

(** ** src/inspect_gltf.cjs *)

(** A value produced by [JSON.parse]; strings are ASCII, so a string's
    [length] is its number of characters. *)
Inductive json :=
| JNull
| JBool (b : bool)
| JNum (x : float)
| JStr (s : string)
| JArr (items : list json)
| JObj (members : list (string * json)).

(** A JS value the script reads: [undefined], a parsed value, or the
    [length] of an array or string. *)
Inductive JsValue :=
| Undefined
| JsJson (j : json)
| JsLength (n : nat).

(** The value of a key in a parsed object: of two equal keys, [JSON.parse]
    keeps the last. *)
Fixpoint assoc_last (k : string) (ms : list (string * json)) : option json :=
  match ms with
  | [] => None
  | (k', v) :: ms' =>
      match assoc_last k ms' with
      | Some v' => Some v'
      | None => if String.eqb k k' then Some v else None
      end
  end.

(** [v[k]] for the keys the script reads ([nodes], [length], [name]), none
    of which a prototype of a JSON value provides; [None] is the TypeError
    of a property read on null or undefined. *)
Definition js_get (v : JsValue) (k : string) : option JsValue :=
  match v with
  | Undefined => None
  | JsLength _ => Some Undefined
  | JsJson JNull => None
  | JsJson (JObj ms) =>
      Some (match assoc_last k ms with Some x => JsJson x | None => Undefined end)
  | JsJson (JArr items) =>
      Some (if String.eqb k "length" then JsLength (List.length items) else Undefined)
  | JsJson (JStr s) =>
      Some (if String.eqb k "length" then JsLength (String.length s) else Undefined)
  | JsJson _ => Some Undefined
  end.

Definition json_truthy (j : json) : bool :=
  match j with
  | JNull => false
  | JBool b => b
  | JNum x => negb (PrimFloat.eqb x 0 || negb (PrimFloat.eqb x x))
  | JStr s => negb (String.eqb s EmptyString)
  | JArr _ | JObj _ => true
  end.

Definition js_truthy (v : JsValue) : bool :=
  match v with
  | Undefined => false
  | JsJson j => json_truthy j
  | JsLength n => negb (Nat.eqb n 0)
  end.

(** The lines the script prints: ["Found " + length + " nodes."],
    [`Node ${index}: ${name}`], ["No 'nodes' property found in JSON."], and
    the [console.error] of the catch. *)
Inductive LogLine :=
| FoundNodes (len : JsValue)
| NodeLine (index : nat) (nm : JsValue)
| NoNodesLine
| CaughtError.

(** [json.nodes.forEach((node, index) => ...)] from [index]: a TypeError
    stops the loop and goes to the catch. *)
Fixpoint for_each_node (index : nat) (items : list json) : list LogLine :=
  match items with
  | [] => []
  | node :: rest =>
      match js_get (JsJson node) "name" with
      | None => [CaughtError]
      | Some nm =>
          (if js_truthy nm then [NodeLine index nm] else [])
          ++ for_each_node (S index) rest
      end
  end.

(** The script; [parsed] is [None] when [readFileSync] or [JSON.parse]
    throws. *)
Definition inspect_gltf (parsed : option json) : list LogLine :=
  match parsed with
  | None => [CaughtError]
  | Some j =>
      match js_get (JsJson j) "nodes" with
      | None => [CaughtError]
      | Some nodes =>
          if js_truthy nodes then
            match js_get nodes "length" with
            | None => [CaughtError]
            | Some len =>
                FoundNodes len ::
                  match nodes with
                  | JsJson (JArr items) => for_each_node 0 items
                  | _ => [CaughtError]
                  end
            end
          else [NoNodesLine]
      end
  end.

(** The [name] a node shows, [undefined] when it has none. *)
Definition name_of (node : json) : JsValue :=
  match js_get (JsJson node) "name" with Some v => v | None => Undefined end.

(** The lines for the nodes [items], numbered from [i], that have a truthy
    name. *)
Definition named_node_lines (i : nat) (items : list json) : list LogLine :=
  map (fun p => NodeLine (fst p) (snd p))
    (filter (fun p => js_truthy (snd p))
       (combine (seq i (List.length items)) (map name_of items))).

(** ** Properties *)

(** What a frame's result list says of the reticle: visible exactly when the
    list is non-empty, and then at the pose of its first result. *)
Definition reticle_shows (rs : list XRHitTestResult) (r : Reticle) : Prop :=
  match hd_error rs with
  | Some h => visible r = true /\ matrix r = pose_matrix h
  | None => visible r = false
  end.

Ltac unfold_setters :=
  unfold set_xr, set_hitTestSource, set_hitTestSourceRequested, set_reticle,
    set_carModel, set_touch, set_observed in *.

Lemma reticle_step_frame qr eu qe st s rs src :
  session (xr st) = Some s -> hitTestSource st = Some src ->
  reticle_shows rs (reticle (step qr eu qe st (XRFrame rs))).
Proof.
  intros Hs Hsrc. simpl. rewrite Hs. unfold render_xr.
  assert (Hsrc1 : hitTestSource (if Bool.eqb (hitTestSourceRequested st) false
                                  then request_hit_test_source s st else st)
                  = Some src)
    by (destruct (Bool.eqb _ _); [unfold request_hit_test_source; unfold_setters|];
        simpl; exact Hsrc).
  unfold update_reticle. rewrite Hsrc1. unfold reticle_shows.
  destruct rs as [|h rs']; simpl; auto.
Qed.

Lemma reticle_step_other qr eu qe st ev :
  match ev, session (xr st), hitTestSource st with
  | XRFrame _, Some _, Some _ => True
  | _, _, _ => reticle (step qr eu qe st ev) = reticle st
  end.
Proof.
  destruct ev; simpl; try reflexivity.
  - unfold session_started. destruct (session (xr st)); reflexivity.
  - unfold session_ended. destruct (session (xr st)); [|reflexivity].
    destruct (existsb _ _); reflexivity.
  - destruct (session (xr st)) as [s|]; [|reflexivity].
    destruct (hitTestSource st) eqn:E; [exact I|].
    unfold render_xr, update_reticle.
    destruct (Bool.eqb _ _); unfold request_hit_test_source in *; unfold_setters;
      simpl; rewrite E; reflexivity.
  - unfold promise_resolved. destruct (nth_error _ _) as [[s|s]|]; try reflexivity.
    destruct (session (xr st)); [destruct (Nat.eqb _ _)|]; reflexivity.
  - unfold onSelect. destruct (visible _), (carModel st); reflexivity.
  - unfold touchstart, rotate_start, pinch_start.
    destruct touches as [|a [|b [|c l]]]; simpl; try reflexivity;
      destruct (carModel st); reflexivity.
  - unfold touchmove, rotate_move, pinch_move.
    destruct touches as [|a [|b [|c l]]]; simpl; try reflexivity;
      destruct (carModel st); try reflexivity.
    destruct (PrimFloat.ltb _ _); reflexivity.
  - unfold rotate_button. destruct (carModel st); reflexivity.
Qed.

Lemma last_hit_frame_reticle qr eu qe st0 evs : forall st acc,
  match acc with
  | None => reticle st = reticle st0
  | Some rs => reticle_shows rs (reticle st)
  end ->
  match last_hit_frame qr eu qe st evs acc with
  | None => reticle (run qr eu qe st evs) = reticle st0
  | Some rs => reticle_shows rs (reticle (run qr eu qe st evs))
  end.
Proof.
  induction evs as [|ev evs IH]; intros st acc H; [exact H|].
  simpl. apply IH.
  pose proof (reticle_step_other qr eu qe st ev) as Ho.
  destruct ev; try (destruct acc; rewrite Ho; exact H).
  destruct (session (xr st)) as [s|] eqn:Hs;
    [destruct (hitTestSource st) as [src|] eqn:Hsrc|].
  - eapply reticle_step_frame; eassumption.
  - destruct acc; rewrite Ho; exact H.
  - destruct acc; rewrite Ho; exact H.
Qed.

(** C1. Every frame processed while a hit-test source exists leaves the
    reticle visible exactly when its result list is non-empty, and then at
    the pose of the first result; no other event changes the reticle.  So,
    over any run, the reticle is visible iff the most recent such frame had a
    result, and its pose is that frame's first result's pose. *)
Theorem reticle_follows_last_hit_frame qr eu qe st0 evs :
  match last_hit_frame qr eu qe st0 evs None with
  | None => reticle (run qr eu qe st0 evs) = reticle st0
  | Some rs => reticle_shows rs (reticle (run qr eu qe st0 evs))
  end.
Proof. apply last_hit_frame_reticle. reflexivity. Qed.

(** C2. With the reticle visible and the car loaded, a select puts the car's
    position at the reticle matrix's translation and its orientation at the
    matrix's rotation; a second select changes nothing more. *)
Theorem select_places_at_reticle qr eu st o :
  visible (reticle st) = true -> carModel st = Some o ->
  carModel (onSelect qr eu st)
    = Some (mkObject3D (setFromMatrixPosition (matrix (reticle st)))
              (qr (matrix (reticle st))) (eu (qr (matrix (reticle st))))
              (scale o))
  /\ onSelect qr eu (onSelect qr eu st) = onSelect qr eu st.
Proof.
  intros Hv Ho. unfold onSelect. rewrite Hv, Ho. simpl. split; [reflexivity|].
  rewrite Hv. reflexivity.
Qed.

(** C3. With the reticle invisible, a select event changes nothing. *)
Theorem select_noop_when_hidden qr eu qe st :
  visible (reticle st) = false -> step qr eu qe st Select = st.
Proof. intros Hv. simpl. unfold onSelect. rewrite Hv. reflexivity. Qed.

(** C10. A select, placing or not, leaves the car's scale as it was. *)
Theorem select_keeps_scale qr eu st :
  option_map scale (carModel (onSelect qr eu st)) = option_map scale (carModel st).
Proof.
  unfold onSelect.
  destruct (visible (reticle st)); destruct (carModel st) eqn:E; simpl;
    rewrite ?E; reflexivity.
Qed.

(** C4. A pinch that starts with two fingers at distance D0 (the car loaded,
    scale S0) and moves them to distance D1 gives the car the scale
    S0 × (D1 / D0), and nothing else of it changes; when D0 = 0 the move
    changes nothing.  The same holds for the listeners of part_000. *)
Theorem pinch_scales_from_baseline qe st o a b t0 t1 :
  carModel st = Some o ->
  (PrimFloat.ltb 0 (touch_distance a b) = true ->
     carModel (touchmove qe [t0; t1] (touchstart [a; b] st))
       = Some (set_scale o (multiplyScalar (scale o)
                 (touch_distance t0 t1 / touch_distance a b)%float))
     /\ carModel (Part000.touchmove [t0; t1] (Part000.touchstart [a; b] st))
       = Some (set_scale o (multiplyScalar (scale o)
                 (touch_distance t0 t1 / touch_distance a b)%float)))
  /\ (touch_distance a b = 0%float ->
     touchmove qe [t0; t1] (touchstart [a; b] st) = touchstart [a; b] st
     /\ Part000.touchmove [t0; t1] (Part000.touchstart [a; b] st)
        = Part000.touchstart [a; b] st).
Proof.
  intros Ho.
  unfold touchmove, touchstart, Part000.touchmove, Part000.touchstart,
    rotate_move, rotate_start, pinch_move, pinch_start.
  rewrite Ho. unfold_setters. simpl. split.
  - intros Hlt. rewrite Hlt. simpl. rewrite Ho. split; reflexivity.
  - intros Hz. rewrite Hz. simpl. rewrite Ho. split; reflexivity.
Qed.

(** ** Sample inputs *)

(** A sample instantiation of three.js' rotation conversions. *)
Definition sample_quaternion_of_rotation_matrix (m : Matrix4) : Quaternion :=
  mkQuaternion 0 0 0 1.
Definition sample_euler_of_quaternion (q : Quaternion) : Euler := mkEuler 0 0 0.
Definition sample_quaternion_of_euler (r : Euler) : Quaternion :=
  mkQuaternion 0 0 0 (ey r).

Definition sample_scene : Object3D :=
  mkObject3D (mkVector3 0 0 0) (mkQuaternion 0 0 0 1) (mkEuler 0 0 0)
    (mkVector3 1 1 1).

(** [sample_scene] after the loader callback. *)
Definition sample_car : Object3D :=
  mkObject3D (mkVector3 0 0 0) (mkQuaternion 0 0 0 1) (mkEuler 0 0 0)
    (setScalar 10).

(** A floor hit 1.5 m ahead and 1 m below. *)
Definition sample_hit : XRHitTestResult :=
  mkHit [1; 0; 0; 0;  0; 1; 0; 0;  0; 0; 1; 0;  0; -1; -1.5; 1]%float.

Definition sample_run (evs : list Event) : State :=
  run sample_quaternion_of_rotation_matrix sample_euler_of_quaternion
    sample_quaternion_of_euler init_state evs.

(** The car is loaded, a session starts, its hit-test source arrives, and a
    frame reports [sample_hit]. *)
Definition tracking_events : list Event :=
  [ModelLoaded sample_scene; SessionStart; XRFrame []; PromiseResolved 0;
   PromiseResolved 0; XRFrame [sample_hit]].

Lemma select_places_at_reticle_witness :
  visible (reticle (sample_run tracking_events)) = true
  /\ carModel (sample_run tracking_events) = Some sample_car
  /\ (carModel (onSelect sample_quaternion_of_rotation_matrix
                  sample_euler_of_quaternion (sample_run tracking_events))
      = Some (mkObject3D
                (setFromMatrixPosition (matrix (reticle (sample_run tracking_events))))
                (sample_quaternion_of_rotation_matrix
                   (matrix (reticle (sample_run tracking_events))))
                (sample_euler_of_quaternion (sample_quaternion_of_rotation_matrix
                   (matrix (reticle (sample_run tracking_events)))))
                (scale sample_car))
     /\ onSelect sample_quaternion_of_rotation_matrix sample_euler_of_quaternion
          (onSelect sample_quaternion_of_rotation_matrix sample_euler_of_quaternion
             (sample_run tracking_events))
        = onSelect sample_quaternion_of_rotation_matrix sample_euler_of_quaternion
            (sample_run tracking_events)).
Proof.
  split; [vm_compute; reflexivity|]. split; [vm_compute; reflexivity|].
  apply select_places_at_reticle; vm_compute; reflexivity.
Defined.

Lemma select_noop_when_hidden_witness :
  visible (reticle (sample_run [ModelLoaded sample_scene])) = false
  /\ step sample_quaternion_of_rotation_matrix sample_euler_of_quaternion
       sample_quaternion_of_euler (sample_run [ModelLoaded sample_scene]) Select
     = sample_run [ModelLoaded sample_scene].
Proof.
  split; [vm_compute; reflexivity|].
  apply select_noop_when_hidden. vm_compute. reflexivity.
Defined.

(** Two fingers at x = 100 and 200 spread to x = 80 and 260: the scale goes
    from 10 to 18. *)
Lemma pinch_scales_from_baseline_witness :
  carModel (sample_run [ModelLoaded sample_scene]) = Some sample_car
  /\ PrimFloat.ltb 0 (touch_distance (mkTouch 100 0) (mkTouch 200 0)) = true
  /\ carModel (touchmove sample_quaternion_of_euler [mkTouch 80 0; mkTouch 260 0]
                (touchstart [mkTouch 100 0; mkTouch 200 0]
                   (sample_run [ModelLoaded sample_scene])))
     = Some (set_scale sample_car (multiplyScalar (scale sample_car)
          (touch_distance (mkTouch 80 0) (mkTouch 260 0)
           / touch_distance (mkTouch 100 0) (mkTouch 200 0))%float))
  /\ multiplyScalar (scale sample_car)
       (touch_distance (mkTouch 80 0) (mkTouch 260 0)
        / touch_distance (mkTouch 100 0) (mkTouch 200 0))%float
     = setScalar 18.
Proof.
  split; [vm_compute; reflexivity|]. split; [vm_compute; reflexivity|].
  split; [|vm_compute; reflexivity].
  refine (proj1 (proj1 (pinch_scales_from_baseline sample_quaternion_of_euler
     (sample_run [ModelLoaded sample_scene]) sample_car
     (mkTouch 100 0) (mkTouch 200 0) (mkTouch 80 0) (mkTouch 260 0) _) _)).
  - vm_compute. reflexivity.
  - vm_compute. reflexivity.
Defined.

(** ** The hit-test source across sessions *)

(** What holds of every reachable state: a cached source, an outstanding
    promise and a set latch all belong to the running session, on which the
    'end' listener is registered; a clear latch means no request yet in the
    running session; requests name sessions that have started, once each;
    every query used a source of the frame's own session. *)
Record xr_inv (st : State) : Prop := {
  inv_source : forall src, hitTestSource st = Some src ->
    session (xr st) = Some (source_session src)
    /\ In (source_session src) (end_listeners (xr st));
  inv_pending : forall p, In p (pending (xr st)) ->
    session (xr st) = Some (promise_session p)
    /\ In (promise_session p) (end_listeners (xr st));
  inv_latch_set : hitTestSourceRequested st = true ->
    exists s, session (xr st) = Some s /\ In s (end_listeners (xr st));
  inv_latch_clear : hitTestSourceRequested st = false ->
    forall s, session (xr st) = Some s -> ~ In s (requests (observed st));
  inv_requests_started : forall s, In s (requests (observed st)) ->
    s < next_session (xr st);
  inv_session_started : forall s, session (xr st) = Some s ->
    s < next_session (xr st);
  inv_requests_nodup : NoDup (requests (observed st));
  inv_queries : Forall (fun q => fst q = source_session (snd q))
                  (queries (observed st)) }.

Lemma xr_inv_init : xr_inv init_state.
Proof.
  constructor; simpl; try discriminate; try contradiction; try constructor.
Qed.

(** Events that leave the runtime, the source, the latch and the
    observations alone keep the invariant. *)
Lemma xr_inv_same st st' :
  xr st' = xr st -> hitTestSource st' = hitTestSource st ->
  hitTestSourceRequested st' = hitTestSourceRequested st ->
  observed st' = observed st -> xr_inv st -> xr_inv st'.
Proof.
  intros Hx Hs Hl Ho [I1 I2 I3 I4 I5 I6 I7 I8].
  constructor; rewrite ?Hx, ?Hs, ?Hl, ?Ho; assumption.
Qed.

Lemma In_remove_nth {A} (n : nat) (l : list A) x :
  In x (remove_nth n l) -> In x l.
Proof.
  unfold remove_nth. revert n. induction l as [|a l IH]; intros n H.
  - destruct n; simpl in H; contradiction.
  - destruct n as [|n]; simpl in H.
    + right. exact H.
    + destruct H as [H|H]; [left; exact H|right; exact (IH n H)].
Qed.

Lemma NoDup_snoc (l : list nat) x : NoDup l -> ~ In x l -> NoDup (l ++ [x]).
Proof.
  induction l as [|a l IH]; intros Hl Hx; simpl.
  - constructor; [intros []|constructor].
  - inversion Hl as [|? ? Ha Hl']; subst. constructor.
    + intros H. apply in_app_or in H as [H|[H|[]]]; [exact (Ha H)|].
      apply Hx. left. symmetry. exact H.
    + apply IH; [exact Hl'|]. intros H. apply Hx. right. exact H.
Qed.

Lemma existsb_eqb_false s l : existsb (Nat.eqb s) l = false -> ~ In s l.
Proof.
  intros H Hin.
  assert (existsb (Nat.eqb s) l = true)
    by (apply existsb_exists; exists s; split; [exact Hin|apply Nat.eqb_refl]).
  congruence.
Qed.

Lemma xr_inv_session_started st : xr_inv st -> xr_inv (session_started st).
Proof.
  intros I. unfold session_started.
  destruct (session (xr st)) as [s|] eqn:Hs; [exact I|].
  destruct I as [I1 I2 I3 I4 I5 I6 I7 I8].
  constructor; unfold_setters; simpl.
  - intros src H. destruct (I1 src H) as [E _]. congruence.
  - intros p H. destruct (I2 p H) as [E _]. congruence.
  - intros H. destruct (I3 H) as [s [E _]]. congruence.
  - intros _ s E Hin. injection E as <-. specialize (I5 _ Hin). lia.
  - intros s H. specialize (I5 s H). lia.
  - intros s E. injection E as <-. lia.
  - exact I7.
  - exact I8.
Qed.

Lemma xr_inv_session_ended st : xr_inv st -> xr_inv (session_ended st).
Proof.
  intros I. unfold session_ended.
  destruct (session (xr st)) as [s|] eqn:Hs; [|exact I].
  destruct I as [I1 I2 I3 I4 I5 I6 I7 I8].
  assert (Hp : forall p, In p (filter (fun p => negb (Nat.eqb (promise_session p) s))
                                  (pending (xr st))) -> False).
  { intros p Hin. apply filter_In in Hin as [Hin Hneq].
    destruct (I2 p Hin) as [E _]. rewrite Hs in E. injection E as E.
    rewrite E, Nat.eqb_refl in Hneq. discriminate. }
  destruct (existsb (Nat.eqb s) (end_listeners (xr st))) eqn:Ex.
  - unfold on_session_end. constructor; unfold_setters; simpl; try discriminate.
    + intros p Hin. destruct (Hp p Hin).
    + exact I5.
    + exact I7.
    + exact I8.
  - apply existsb_eqb_false in Ex.
    constructor; unfold_setters; simpl; try discriminate.
    + intros src H. destruct (I1 src H) as [E Hin]. rewrite Hs in E.
      exfalso. apply Ex. injection E as E. rewrite E. exact Hin.
    + intros p Hin. destruct (Hp p Hin).
    + intros H. destruct (I3 H) as [s' [E Hin]]. rewrite Hs in E.
      exfalso. apply Ex. injection E as E. rewrite E. exact Hin.
    + exact I5.
    + exact I7.
    + exact I8.
Qed.

Lemma xr_inv_request st s :
  session (xr st) = Some s -> hitTestSourceRequested st = false ->
  xr_inv st -> xr_inv (request_hit_test_source s st).
Proof.
  intros Hs Hl [I1 I2 I3 I4 I5 I6 I7 I8].
  unfold request_hit_test_source. constructor; unfold_setters; simpl.
  - intros src H. destruct (I1 src H) as [E Hin]. split; [exact E|].
    apply in_or_app. left. exact Hin.
  - intros p H. apply in_app_or in H as [H|[<-|[]]].
    + destruct (I2 p H) as [E Hin]. split; [exact E|].
      apply in_or_app. left. exact Hin.
    + split; [exact Hs|]. apply in_or_app. right. left. reflexivity.
  - intros _. exists s. split; [exact Hs|]. apply in_or_app. right. left. reflexivity.
  - discriminate.
  - intros s' H. apply in_app_or in H as [H|[<-|[]]]; [exact (I5 s' H)|].
    exact (I6 s Hs).
  - exact I6.
  - apply NoDup_snoc; [exact I7|]. exact (I4 Hl s Hs).
  - exact I8.
Qed.

Lemma xr_inv_update_reticle st s rs :
  session (xr st) = Some s -> xr_inv st -> xr_inv (update_reticle s rs st).
Proof.
  intros Hs I. unfold update_reticle.
  destruct (hitTestSource st) as [src|] eqn:Esrc; [|exact I].
  assert (Hq : s = source_session src).
  { destruct (inv_source st I src Esrc) as [E _]. congruence. }
  destruct I as [I1 I2 I3 I4 I5 I6 I7 I8].
  destruct rs; constructor; unfold_setters; simpl;
    first [ assumption
          | apply Forall_app; split; [exact I8|constructor; [exact Hq|constructor]] ].
Qed.

Lemma xr_inv_render st s rs :
  session (xr st) = Some s -> xr_inv st -> xr_inv (render_xr s rs st).
Proof.
  intros Hs I. unfold render_xr.
  destruct (hitTestSourceRequested st) eqn:El; simpl.
  - apply xr_inv_update_reticle; assumption.
  - apply xr_inv_update_reticle.
    + unfold request_hit_test_source. unfold_setters. simpl. exact Hs.
    + apply xr_inv_request; assumption.
Qed.

Lemma xr_inv_set_pending st l :
  (forall p, In p l -> session (xr st) = Some (promise_session p)
                       /\ In (promise_session p) (end_listeners (xr st))) ->
  xr_inv st ->
  xr_inv (set_xr st (mkXR (session (xr st)) (next_session (xr st))
                       (end_listeners (xr st)) l)).
Proof.
  intros Hl [I1 I2 I3 I4 I5 I6 I7 I8].
  constructor; unfold_setters; simpl; assumption.
Qed.

Lemma xr_inv_resolved st n : xr_inv st -> xr_inv (promise_resolved n st).
Proof.
  intros I. unfold promise_resolved.
  destruct (nth_error (pending (xr st)) n) as [p|] eqn:Hn; [|exact I].
  apply nth_error_In in Hn. destruct (inv_pending st I p Hn) as [Hsp Hlp].
  assert (Hrem : forall p', In p' (remove_nth n (pending (xr st))) ->
            session (xr st) = Some (promise_session p')
            /\ In (promise_session p') (end_listeners (xr st)))
    by (intros p' H; exact (inv_pending st I p' (In_remove_nth _ _ _ H))).
  destruct p as [s|s]; simpl in Hsp, Hlp.
  - rewrite Hsp, Nat.eqb_refl.
    assert (E : forall x : XRSystem, set_xr (set_xr st x)
              (mkXR (Some s) (next_session (xr st)) (end_listeners (xr st))
                 (remove_nth n (pending (xr st)) ++ [HitTestSourceRequest s]))
              = set_xr st (mkXR (session (xr st)) (next_session (xr st))
                 (end_listeners (xr st))
                 (remove_nth n (pending (xr st)) ++ [HitTestSourceRequest s])))
      by (intros x; rewrite Hsp; reflexivity).
    rewrite E. apply xr_inv_set_pending; [|exact I].
    intros p' H. apply in_app_or in H as [H|[<-|[]]]; [exact (Hrem p' H)|].
    split; assumption.
  - pose proof (xr_inv_set_pending st _ Hrem I) as I'.
    destruct I' as [I1 I2 I3 I4 I5 I6 I7 I8].
    constructor; unfold_setters; simpl in *; try assumption.
    intros src E. injection E as <-. simpl. split; assumption.
Qed.

Lemma xr_inv_rejected st n : xr_inv st -> xr_inv (promise_rejected n st).
Proof.
  intros I. unfold promise_rejected. apply xr_inv_set_pending; [|exact I].
  intros p H. exact (inv_pending st I p (In_remove_nth _ _ _ H)).
Qed.

(** The part of the state the session logic reads. *)
Definition xr_view (st : State) :=
  (xr st, hitTestSource st, hitTestSourceRequested st, observed st).

Lemma xr_inv_view st st' : xr_view st' = xr_view st -> xr_inv st -> xr_inv st'.
Proof.
  unfold xr_view. intros E. injection E as Hx Hs Hl Ho.
  apply xr_inv_same; assumption.
Qed.

Ltac view_cases :=
  repeat (first [ reflexivity
                | progress simpl
                | match goal with
                  | |- context [match ?x with _ => _ end] => destruct x
                  end ]).

Lemma xr_inv_step qr eu qe st ev : xr_inv st -> xr_inv (step qr eu qe st ev).
Proof.
  intros I. destruct ev; simpl.
  - apply xr_inv_session_started. exact I.
  - apply xr_inv_session_ended. exact I.
  - destruct (session (xr st)) as [s|] eqn:Hs; [|exact I].
    apply xr_inv_render; assumption.
  - apply xr_inv_resolved. exact I.
  - apply xr_inv_rejected. exact I.
  - apply (xr_inv_view st); [|exact I]. unfold onSelect. view_cases.
  - apply (xr_inv_view st); [|exact I].
    unfold touchstart, rotate_start, pinch_start. view_cases.
  - apply (xr_inv_view st); [|exact I].
    unfold touchmove, rotate_move, pinch_move. view_cases.
  - exact I.
  - apply (xr_inv_view st); [|exact I]. unfold rotate_button. view_cases.
  - apply (xr_inv_view st); [|exact I]. reflexivity.
Qed.

Lemma xr_inv_run qr eu qe evs : forall st, xr_inv st -> xr_inv (run qr eu qe st evs).
Proof.
  induction evs as [|ev evs IH]; intros st I; [exact I|].
  simpl. apply IH. apply xr_inv_step. exact I.
Qed.

Lemma run_snoc qr eu qe st evs ev :
  run qr eu qe st (evs ++ [ev]) = step qr eu qe (run qr eu qe st evs) ev.
Proof. unfold run. rewrite fold_left_app. reflexivity. Qed.

Lemma session_ended_clears st :
  xr_inv st ->
  hitTestSourceRequested (session_ended st) = false
  /\ hitTestSource (session_ended st) = None.
Proof.
  intros I. pose proof (xr_inv_session_ended st I) as I'.
  unfold session_ended in *.
  destruct (session (xr st)) as [s|] eqn:Hs.
  - destruct (existsb (Nat.eqb s) (end_listeners (xr st))) eqn:Ex;
      [split; reflexivity|].
    apply existsb_eqb_false in Ex. unfold_setters. simpl. split.
    + destruct (hitTestSourceRequested st) eqn:El; [|reflexivity].
      destruct (inv_latch_set st I El) as [s' [E Hin]].
      rewrite Hs in E. injection E as <-. contradiction.
    + destruct (hitTestSource st) as [src|] eqn:Esrc; [|reflexivity].
      destruct (inv_source st I src Esrc) as [E Hin].
      rewrite Hs in E. injection E as E. rewrite <- E in Hin. contradiction.
  - split.
    + destruct (hitTestSourceRequested st) eqn:El; [|reflexivity].
      destruct (inv_latch_set st I El) as [s' [E _]]. congruence.
    + destruct (hitTestSource st) as [src|] eqn:Esrc; [|reflexivity].
      destruct (inv_source st I src Esrc) as [E _]. congruence.
Qed.

(** C5. After a session-end event the latch is clear and no source is
    cached; and over every run, every frame queries only a source of its own
    session, so none obtained in an earlier session (the runtime rejects a
    session's outstanding requests when it shuts down). *)
Theorem session_end_drops_source qr eu qe evs :
  hitTestSourceRequested (run qr eu qe init_state (evs ++ [SessionEnd])) = false
  /\ hitTestSource (run qr eu qe init_state (evs ++ [SessionEnd])) = None
  /\ Forall (fun q => fst q = source_session (snd q))
       (queries (observed (run qr eu qe init_state evs))).
Proof.
  pose proof (xr_inv_run qr eu qe evs init_state xr_inv_init) as I.
  rewrite run_snoc. simpl.
  destruct (session_ended_clears _ I) as [H1 H2].
  split; [exact H1|]. split; [exact H2|]. exact (inv_queries _ I).
Qed.

(** C8. Over every run, at most one acquisition request is issued per
    session: the request log, by session, has no duplicates. *)
Theorem one_request_per_session qr eu qe evs :
  NoDup (requests (observed (run qr eu qe init_state evs))).
Proof.
  exact (inv_requests_nodup _ (xr_inv_run qr eu qe evs init_state xr_inv_init)).
Qed.

(** ** Rotation, scale and baselines *)

(** Proves [a <> b] for two closed floats that differ. *)
Ltac float_neq :=
  let H := fresh in
  intro H;
  match type of H with
  | ?a = ?b =>
      let E := fresh in
      assert (E : PrimFloat.Leibniz.eqb a b = false) by (vm_compute; reflexivity);
      rewrite H in E; vm_compute in E; discriminate E
  end.

(** Deltas [x_i - x_(i-1)] of successive horizontal coordinates, from
    [prev]: the [deltaX] of successive one-finger moves. *)
Fixpoint touch_deltas (prev : float) (xs : list float) : list float :=
  match xs with
  | [] => []
  | x :: xs' => (x - prev)%float :: touch_deltas x xs'
  end.

(** The yaw after adding [d × 0.005] for each delta, left to right, in
    binary64. *)
Definition accumulate_yaw (y : float) (ds : list float) : float :=
  fold_left (fun acc d => (acc + d * 0.005)%float) ds y.

(** One finger at x = 0, then moves to x = 1 and x = 6. *)
Definition rotate_events : list Event :=
  [ModelLoaded sample_scene; TouchStart [mkTouch 0 0];
   TouchMove [mkTouch 1 0]; TouchMove [mkTouch 6 0]].

(** C6 (counterexample). Deltas 1 and 5 from yaw 0: the yaw becomes
    0.005 + 0.025 rounded, 0.030000000000000002, while 0.005 × (1 + 5) is
    0.03. *)
Lemma yaw_sum_counterexample :
  match carModel (sample_run rotate_events) with
  | Some o => (ey (rotation o) - ey (rotation sample_car))%float
              <> (0.005 * (1 + 5))%float
  | None => False
  end.
Proof. vm_compute. float_neq. Qed.

Lemma pinch_move_one_finger st t : pinch_move [t] st = st.
Proof. unfold pinch_move. destruct (carModel st); reflexivity. Qed.

(** C6 (amended). A run of one-finger moves adds [deltaX × 0.005] to the
    yaw for each move, in order and with binary64 rounding at each step,
    where [deltaX] is the move's x minus the previous x; pitch and roll do
    not change. *)
Theorem yaw_accumulates qr eu qe ts : forall st o,
  carModel st = Some o ->
  exists o',
    carModel (run qr eu qe st (map (fun t => TouchMove [t]) ts)) = Some o'
    /\ ey (rotation o')
       = accumulate_yaw (ey (rotation o))
           (touch_deltas (previousTouchX (touch st)) (map pageX ts))
    /\ ex (rotation o') = ex (rotation o)
    /\ ez (rotation o') = ez (rotation o).
Proof.
  induction ts as [|t ts IH]; intros st o Ho.
  - exists o. simpl. split; [exact Ho|]. repeat split.
  - unfold run. cbn [map fold_left step]. fold (run qr eu qe).
    unfold touchmove. rewrite pinch_move_one_finger.
    unfold rotate_move. rewrite Ho.
    set (st1 := set_carModel _ _).
    assert (Ho1 : carModel st1 = Some (set_rotation_y qe o
               (ey (rotation o) + (pageX t - previousTouchX (touch st)) * 0.005)%float))
      by reflexivity.
    destruct (IH st1 _ Ho1) as [o' [H1 [H2 [H3 H4]]]].
    exists o'. split; [exact H1|]. split; [|split].
    + rewrite H2. reflexivity.
    + rewrite H3. reflexivity.
    + rewrite H4. reflexivity.
Qed.

Lemma yaw_accumulates_witness :
  carModel (sample_run (firstn 2 rotate_events)) = Some sample_car
  /\ exists o',
    carModel (run sample_quaternion_of_rotation_matrix sample_euler_of_quaternion
                sample_quaternion_of_euler (sample_run (firstn 2 rotate_events))
                (map (fun t => TouchMove [t]) [mkTouch 1 0; mkTouch 6 0])) = Some o'
    /\ ey (rotation o')
       = accumulate_yaw (ey (rotation sample_car))
           (touch_deltas (previousTouchX (touch (sample_run (firstn 2 rotate_events))))
              (map pageX [mkTouch 1 0; mkTouch 6 0]))
    /\ ex (rotation o') = ex (rotation sample_car)
    /\ ez (rotation o') = ez (rotation sample_car).
Proof.
  split; [vm_compute; reflexivity|].
  apply yaw_accumulates. vm_compute. reflexivity.
Defined.

(** Two fingers one pixel apart, then spread to x = 1e200: the distance
    [Math.sqrt(dx * dx + dy * dy)] overflows to Infinity. *)
Definition overflow_pinch_events : list Event :=
  [ModelLoaded sample_scene; TouchStart [mkTouch 0 0; mkTouch 1 0];
   TouchMove [mkTouch 0 0; mkTouch 1e200 0]].

(** C7 (counterexample). The computed scale is infinite and it is stored as
    is; the car's scale is not 1. *)
Lemma nonfinite_scale_counterexample :
  match carModel (sample_run overflow_pinch_events) with
  | Some o => PrimFloat.is_finite (vx (scale o)) = false
              /\ vx (scale o) <> 1%float
  | None => False
  end.
Proof. vm_compute. split; [reflexivity|float_neq]. Qed.

(** C7 (amended). A two-finger move with the car loaded and a positive
    baseline distance stores [initialScale × (D1 / initialDistance)] as the
    car's scale, finite or not; there is no fallback value.  Same for
    part_000. *)
Theorem pinch_stores_computed_scale qe st o t0 t1 :
  carModel st = Some o ->
  PrimFloat.ltb 0 (initialDistance (touch st)) = true ->
  carModel (touchmove qe [t0; t1] st)
    = Some (set_scale o (multiplyScalar (initialScale (touch st))
              (touch_distance t0 t1 / initialDistance (touch st))%float))
  /\ carModel (Part000.touchmove [t0; t1] st)
    = Some (set_scale o (multiplyScalar (initialScale (touch st))
              (touch_distance t0 t1 / initialDistance (touch st))%float)).
Proof.
  intros Ho Hlt.
  unfold touchmove, Part000.touchmove, rotate_move, pinch_move.
  rewrite Ho, Hlt. simpl. split; reflexivity.
Qed.

Lemma pinch_stores_computed_scale_witness :
  carModel (sample_run (firstn 2 overflow_pinch_events)) = Some sample_car
  /\ PrimFloat.ltb 0
       (initialDistance (touch (sample_run (firstn 2 overflow_pinch_events)))) = true
  /\ carModel (sample_run overflow_pinch_events)
     = Some (set_scale sample_car (multiplyScalar (setScalar 10)
               (touch_distance (mkTouch 0 0) (mkTouch 1e200 0) / 1)%float)).
Proof.
  split; [vm_compute; reflexivity|]. split; [vm_compute; reflexivity|].
  exact (proj1 (pinch_stores_computed_scale sample_quaternion_of_euler
    (sample_run (firstn 2 overflow_pinch_events)) sample_car
    (mkTouch 0 0) (mkTouch 1e200 0)
    ltac:(vm_compute; reflexivity) ltac:(vm_compute; reflexivity))).
Defined.

(** One finger at x = 10, a second at x = 200, the first lifts (a
    'touchend', no listener), and the remaining finger moves to x = 210. *)
Definition regrip_events : list Event :=
  [ModelLoaded sample_scene; TouchStart [mkTouch 10 0];
   TouchStart [mkTouch 10 0; mkTouch 200 0]; TouchEnd [mkTouch 200 0]].

(** C9 (counterexample). Going from two fingers to one does not
    re-initialize the rotate baseline: it is still 10, not the remaining
    finger's 200, and the next move turns the car by (210 - 10) × 0.005
    instead of (210 - 200) × 0.005. *)
Lemma regrip_baseline_counterexample :
  previousTouchX (touch (sample_run regrip_events)) = 10%float
  /\ match carModel (sample_run (regrip_events ++ [TouchMove [mkTouch 210 0]])) with
     | Some o => ey (rotation o) = (0 + (210 - 10) * 0.005)%float
                 /\ ey (rotation o) <> (0 + (210 - 200) * 0.005)%float
     | None => False
     end.
Proof. vm_compute. split; [reflexivity|]. split; [reflexivity|float_neq]. Qed.

(** C9 (amended). Baselines are reset only by 'touchstart', which fires when
    a finger is added: with the car loaded, a two-finger start takes a new
    distance and scale snapshot, a one-finger start a new previous x; a
    'touchend' (a finger lifted) changes nothing, so after two fingers become
    one the previous x keeps its earlier value. *)
Theorem touchstart_resets_baselines qr eu qe st o a b ts :
  carModel st = Some o ->
  touch (touchstart [a; b] st)
    = mkTouchState (touch_distance a b) (scale o) (previousTouchX (touch st))
  /\ touch (touchstart [a] st)
    = mkTouchState (initialDistance (touch st)) (initialScale (touch st)) (pageX a)
  /\ step qr eu qe st (TouchEnd ts) = st.
Proof.
  intros Ho. unfold touchstart, rotate_start, pinch_start. rewrite Ho.
  simpl. rewrite ?Ho. split; [|split]; reflexivity.
Qed.

Lemma touchstart_resets_baselines_witness :
  carModel (sample_run (firstn 2 regrip_events)) = Some sample_car
  /\ touch (touchstart [mkTouch 10 0; mkTouch 200 0]
              (sample_run (firstn 2 regrip_events)))
     = mkTouchState (touch_distance (mkTouch 10 0) (mkTouch 200 0)) (scale sample_car)
         (previousTouchX (touch (sample_run (firstn 2 regrip_events))))
  /\ touch (touchstart [mkTouch 10 0] (sample_run (firstn 2 regrip_events)))
     = mkTouchState (initialDistance (touch (sample_run (firstn 2 regrip_events))))
         (initialScale (touch (sample_run (firstn 2 regrip_events)))) 10
  /\ step sample_quaternion_of_rotation_matrix sample_euler_of_quaternion
       sample_quaternion_of_euler (sample_run (firstn 2 regrip_events))
       (TouchEnd [mkTouch 200 0])
     = sample_run (firstn 2 regrip_events).
Proof.
  split; [vm_compute; reflexivity|].
  exact (touchstart_resets_baselines sample_quaternion_of_rotation_matrix
    sample_euler_of_quaternion sample_quaternion_of_euler
    (sample_run (firstn 2 regrip_events)) sample_car
    (mkTouch 10 0) (mkTouch 200 0) [mkTouch 200 0]
    ltac:(vm_compute; reflexivity)).
Defined.

(** ** Scene graph: clean-up and recolouring *)

Section NodeInd.

Variable P : Node -> Prop.
Hypothesis Hnode : forall i nm y m c r mt ks,
  Forall P ks -> P (mkNode i nm y m c r mt ks).

(** Induction on a node and the list of its children. *)
Fixpoint Node_ind' (n : Node) : P n :=
  match n with
  | mkNode i nm y m c r mt ks =>
      Hnode i nm y m c r mt ks
        ((fix go (l : list Node) : Forall P l :=
            match l with
            | [] => @Forall_nil _ P
            | k :: l' => @Forall_cons _ P k l' (Node_ind' k) (go l')
            end) ks)
  end.

End NodeInd.

(** The fields of a node other than its material and children. *)
Definition node_head (n : Node) :=
  (node_id n, node_name n, node_pos_y n, node_isMesh n, node_castShadow n,
   node_receiveShadow n).

Lemma node_head_id k k' : node_head k = node_head k' -> node_id k = node_id k'.
Proof. unfold node_head. intros H. injection H. auto. Qed.

Lemma cleanup_visit_rule_eq nm y m c r :
  cleanup_visit nm y m c r =
  if matches_Text_i nm || includes nm "ground_shadow"
     || PrimFloat.ltb 50 y || PrimFloat.ltb y (-50)
  then (true, (c, r)) else (false, (m || c, m || r)).
Proof.
  unfold cleanup_visit.
  destruct (matches_Text_i nm), (includes nm "ground_shadow"),
    (includes nm "Plane"), (PrimFloat.ltb 50 y), (PrimFloat.ltb y (-50)), m;
    reflexivity.
Qed.

Lemma Part000_cleanup_visit_eq nm y m c r :
  Part000.cleanup_visit nm y m c r =
  if matches_Text_i nm || PrimFloat.ltb 50 y || PrimFloat.ltb y (-50)
  then (true, (c, r)) else (false, (m || c, m || r)).
Proof.
  unfold Part000.cleanup_visit.
  destruct (matches_Text_i nm), (PrimFloat.ltb 50 y), (PrimFloat.ltb y (-50)), m;
    reflexivity.
Qed.

(** Every node of the traversed tree comes from a node of the original one,
    with the callback's shadow flags; a node the callback pushes is in
    [toRemove]. *)
Lemma cleanup_traverse_nodes visit : forall n k',
  In k' (all_nodes (fst (cleanup_traverse visit n))) ->
  exists k, In k (all_nodes n)
    /\ node_id k' = node_id k /\ node_name k' = node_name k
    /\ node_pos_y k' = node_pos_y k /\ node_isMesh k' = node_isMesh k
    /\ (node_castShadow k', node_receiveShadow k')
       = snd (visit (node_name k) (node_pos_y k) (node_isMesh k)
                (node_castShadow k) (node_receiveShadow k))
    /\ (fst (visit (node_name k) (node_pos_y k) (node_isMesh k)
               (node_castShadow k) (node_receiveShadow k)) = true ->
        In (node_id k) (snd (cleanup_traverse visit n))).
Proof.
  intros n. induction n as [i nm y m c r mt ks IH] using Node_ind'.
  intros k' Hk. cbn [cleanup_traverse] in *.
  destruct (visit nm y m c r) as [push [c' r']] eqn:Ev.
  cbn [fst snd all_nodes node_children] in Hk. destruct Hk as [<- | Hk].
  - exists (mkNode i nm y m c r mt ks). cbn. rewrite Ev.
    repeat split; auto.
    intros Hp. cbn in Hp. subst push. left. reflexivity.
  - apply in_flat_map in Hk as [x [Hx Hk]].
    rewrite map_map in Hx. apply in_map_iff in Hx as [c0 [<- Hc0]].
    rewrite Forall_forall in IH.
    destruct (IH c0 Hc0 k' Hk) as [k [Hin [H1 [H2 [H3 [H4 [H5 H6]]]]]]].
    exists k. repeat split; auto.
    + right. apply in_flat_map. exists c0. auto.
    + intros Hp. apply in_or_app. right. apply in_flat_map.
      exists (cleanup_traverse visit c0). split; [apply in_map; exact Hc0|].
      exact (H6 Hp).
Qed.

Lemma cleanup_traverse_root visit n :
  node_id (fst (cleanup_traverse visit n)) = node_id n.
Proof.
  destruct n as [i nm y m c r mt ks]. cbn.
  destruct (visit nm y m c r) as [push [c' r']]. reflexivity.
Qed.

Lemma remove_from_parent_root id n :
  node_head (remove_from_parent id n) = node_head n.
Proof. destruct n. reflexivity. Qed.

Lemma remove_from_parent_all id : forall n k',
  In k' (all_nodes (remove_from_parent id n)) ->
  (k' = remove_from_parent id n \/ node_id k' <> id)
  /\ exists k, In k (all_nodes n) /\ node_head k = node_head k'.
Proof.
  intros n. induction n as [i nm y m c r mt ks IH] using Node_ind'.
  intros k' Hk. cbn [remove_from_parent all_nodes node_children] in Hk.
  destruct Hk as [<- | Hk].
  - split; [left; reflexivity|]. exists (mkNode i nm y m c r mt ks).
    split; [left; reflexivity | reflexivity].
  - apply in_flat_map in Hk as [x [Hx Hk]].
    apply filter_In in Hx as [Hx Hne]. apply in_map_iff in Hx as [c0 [<- Hc0]].
    rewrite Forall_forall in IH.
    destruct (IH c0 Hc0 k' Hk) as [Hid [k [Hin Hh]]]. split.
    + right. destruct Hid as [-> | Hid]; [|exact Hid].
      apply Nat.eqb_neq. destruct (Nat.eqb _ _); [discriminate | reflexivity].
    + exists k. split; [|exact Hh]. right. apply in_flat_map. exists c0. auto.
Qed.

Lemma remove_from_parent_desc id n k' :
  In k' (descendants (remove_from_parent id n)) ->
  node_id k' <> id /\ exists k, In k (descendants n) /\ node_head k = node_head k'.
Proof.
  destruct n as [i nm y m c r mt ks]. unfold descendants.
  cbn [remove_from_parent node_children]. intros Hk.
  apply in_flat_map in Hk as [x [Hx Hk]].
  apply filter_In in Hx as [Hx Hne]. apply in_map_iff in Hx as [c0 [<- Hc0]].
  destruct (remove_from_parent_all id c0 k' Hk) as [Hid [k [Hin Hh]]]. split.
  - destruct Hid as [-> | Hid]; [|exact Hid].
    apply Nat.eqb_neq. destruct (Nat.eqb _ _); [discriminate | reflexivity].
  - exists k. split; [|exact Hh]. apply in_flat_map. exists c0. auto.
Qed.

Lemma remove_all_desc : forall ids t k',
  In k' (descendants (fold_left (fun t id => remove_from_parent id t) ids t)) ->
  ~ In (node_id k') ids /\ exists k, In k (descendants t) /\ node_head k = node_head k'.
Proof.
  induction ids as [|a ids IH]; intros t k' Hk.
  - split; [intros []|]. exists k'. auto.
  - cbn [fold_left] in Hk. destruct (IH _ _ Hk) as [Hnot [k1 [Hk1 Hh1]]].
    destruct (remove_from_parent_desc a t k1 Hk1) as [Hne [k [Hk0 Hh]]].
    split.
    + intros [Ha | Hin]; [|contradiction].
      apply Hne. rewrite (node_head_id _ _ Hh1). exact (eq_sym Ha).
    + exists k. split; [exact Hk0|]. congruence.
Qed.

Lemma remove_all_root : forall ids t,
  node_id (fold_left (fun t id => remove_from_parent id t) ids t) = node_id t.
Proof.
  induction ids as [|a ids IH]; intros t; [reflexivity|].
  cbn [fold_left]. rewrite IH. exact (node_head_id _ _ (remove_from_parent_root a t)).
Qed.

(** Every node left below the root went through the callback unflagged. *)
Lemma cleanup_with_desc visit root k :
  In k (descendants (cleanup_with visit root)) ->
  exists k0, In k0 (all_nodes root)
    /\ node_name k = node_name k0 /\ node_pos_y k = node_pos_y k0
    /\ node_isMesh k = node_isMesh k0
    /\ fst (visit (node_name k0) (node_pos_y k0) (node_isMesh k0)
              (node_castShadow k0) (node_receiveShadow k0)) = false
    /\ (node_castShadow k, node_receiveShadow k)
       = snd (visit (node_name k0) (node_pos_y k0) (node_isMesh k0)
                (node_castShadow k0) (node_receiveShadow k0)).
Proof.
  unfold cleanup_with. destruct (cleanup_traverse visit root) as [root' rem] eqn:E.
  intros Hk. destruct (remove_all_desc rem root' k Hk) as [Hnot [k1 [Hk1 Hh]]].
  assert (Hall : In k1 (all_nodes root')) by (destruct root'; right; exact Hk1).
  pose proof (cleanup_traverse_nodes visit root k1) as T. rewrite E in T.
  destruct (T Hall) as [k0 [Hin [H1 [H2 [H3 [H4 [H5 H6]]]]]]].
  unfold node_head in Hh. injection Hh as Hid Hnm Hy Hm Hc Hr.
  exists k0. split; [exact Hin|]. split; [congruence|]. split; [congruence|].
  split; [congruence|]. split.
  - destruct (fst (visit (node_name k0) (node_pos_y k0) (node_isMesh k0)
                 (node_castShadow k0) (node_receiveShadow k0))) eqn:Ef;
      [|reflexivity].
    exfalso. apply Hnot. rewrite <- Hid, H1. exact (H6 eq_refl).
  - rewrite <- Hc, <- Hr. exact H5.
Qed.




Definition clear_active (b : ColorButton) : ColorButton :=
  mkColorButton (data_color b) false.

Lemma firstn_skipn_middle {A} (l1 l2 : list A) x :
  firstn (List.length l1) (l1 ++ x :: l2) = l1
  /\ skipn (S (List.length l1)) (l1 ++ x :: l2) = l2.
Proof.
  induction l1 as [|a l1 IH]; [split; reflexivity|].
  destruct IH as [H1 H2]. cbn. rewrite H1. split; [reflexivity|].
  exact H2.
Qed.

(** A click on a button in range, with the buttons around it. *)
Lemma color_click_some i p b :
  nth_error (color_buttons p) i = Some b ->
  exists l1 l2, color_buttons p = l1 ++ b :: l2 /\ List.length l1 = i
    /\ color_click i p
       = mkPage (map clear_active l1 ++ mkColorButton (data_color b) true
                   :: map clear_active l2)
                (option_map (recolor (data_color b)) (car_scene p)).
Proof.
  intros Hb. destruct (nth_error_split _ _ Hb) as [l1 [l2 [Hbs Hlen]]].
  exists l1, l2. split; [exact Hbs|]. split; [exact Hlen|].
  unfold color_click. rewrite Hb. rewrite Hbs, map_app. cbn [map].
  destruct (firstn_skipn_middle (map clear_active l1) (map clear_active l2)
              (clear_active b)) as [H1 H2].
  rewrite length_map in H1, H2. unfold clear_active in H1, H2 |- *.
  rewrite <- Hlen, H1, H2. reflexivity.
Qed.

Lemma map_eqb_seq_other i : forall k s,
  (i < s \/ s + k <= i) -> map (fun j => Nat.eqb j i) (seq s k) = repeat false k.
Proof.
  induction k as [|k IH]; intros s H; [reflexivity|].
  cbn [seq map repeat]. rewrite IH by lia.
  replace (Nat.eqb s i) with false; [reflexivity|].
  symmetry. apply Nat.eqb_neq. lia.
Qed.

Lemma map_active_cleared l : map active (map clear_active l) = repeat false (List.length l).
Proof. induction l as [|a l IH]; cbn; [reflexivity|]. rewrite IH. reflexivity. Qed.

Lemma map_data_color_cleared l : map data_color (map clear_active l) = map data_color l.
Proof. rewrite map_map. reflexivity. Qed.


(** X1. The clean-up callback flags a node exactly when its name matches
    /Text/i, its name contains 'ground_shadow', or its y position is above 50
    or below -50 ('Plane' in a name never decides it); an unflagged mesh gets
    both shadow flags, and nothing else changes.  The part_000 callback
    flags on the name and the position only, so it keeps 'ground_shadow'
    nodes. *)
Theorem cleanup_flag_rule nm y m c r :
  cleanup_visit nm y m c r =
    (if matches_Text_i nm || includes nm "ground_shadow"
        || PrimFloat.ltb 50 y || PrimFloat.ltb y (-50)
     then (true, (c, r)) else (false, (m || c, m || r)))
  /\ Part000.cleanup_visit nm y m c r =
    (if matches_Text_i nm || PrimFloat.ltb 50 y || PrimFloat.ltb y (-50)
     then (true, (c, r)) else (false, (m || c, m || r))).
Proof.
  split; [apply cleanup_visit_rule_eq | apply Part000_cleanup_visit_eq].
Qed.

(** X2. After the clean-up the root is still the model's root, and every
    node left below it has a name without /Text/i and without
    'ground_shadow', a y position within [-50, 50] (or NaN), and, if it is a
    mesh, casts and receives shadows. *)
Theorem cleanup_model_leaves_clean_tree root :
  node_id (cleanup_model root) = node_id root
  /\ forall k, In k (descendants (cleanup_model root)) ->
       matches_Text_i (node_name k) = false
       /\ includes (node_name k) "ground_shadow" = false
       /\ PrimFloat.ltb 50 (node_pos_y k) = false
       /\ PrimFloat.ltb (node_pos_y k) (-50) = false
       /\ (node_isMesh k = true ->
           node_castShadow k = true /\ node_receiveShadow k = true).
Proof.
  split.
  - unfold cleanup_model, cleanup_with.
    pose proof (cleanup_traverse_root cleanup_visit root) as Hr.
    destruct (cleanup_traverse cleanup_visit root) as [root' rem].
    rewrite remove_all_root. exact Hr.
  - intros k Hk.
    destruct (cleanup_with_desc _ _ _ Hk) as [k0 [_ [Hn [Hy [Hm [Hf Hs]]]]]].
    rewrite cleanup_visit_rule_eq in Hf, Hs. rewrite Hn, Hy, Hm.
    destruct (matches_Text_i (node_name k0)); [discriminate|].
    destruct (includes (node_name k0) "ground_shadow"); [discriminate|].
    destruct (PrimFloat.ltb 50 (node_pos_y k0)); [discriminate|].
    destruct (PrimFloat.ltb (node_pos_y k0) (-50)); [discriminate|].
    cbn in Hs. injection Hs as Hc Hr.
    do 4 (split; [reflexivity|]). intros Hmesh. rewrite Hmesh in Hc, Hr.
    split; assumption.
Qed.




(** X5. After a click on the [i]-th colour button (in range), button [j]
    is active exactly when [j = i], and every button keeps its colour. *)
Theorem color_click_activates i p :
  i < List.length (color_buttons p) ->
  map data_color (color_buttons (color_click i p)) = map data_color (color_buttons p)
  /\ map active (color_buttons (color_click i p))
     = map (fun j => Nat.eqb j i) (seq 0 (List.length (color_buttons p))).
Proof.
  intros Hi.
  destruct (nth_error (color_buttons p) i) as [b|] eqn:Ei.
  2:{ apply nth_error_None in Ei. lia. }
  destruct (color_click_some i p b Ei) as [l1 [l2 [Hbs [Hlen Hc]]]].
  rewrite Hc. cbn [color_buttons]. rewrite Hbs. split.
  - rewrite !map_app. cbn [map]. rewrite !map_data_color_cleared. reflexivity.
  - subst i. rewrite length_app. cbn [List.length]. rewrite seq_app, !map_app.
    cbn [map]. rewrite !map_active_cleared, Nat.add_0_l.
    rewrite (map_eqb_seq_other (List.length l1) (List.length l1) 0) by lia.
    cbn [seq map]. rewrite Nat.eqb_refl.
    rewrite (map_eqb_seq_other (List.length l1) (List.length l2) (S (List.length l1)))
      by lia.
    reflexivity.
Qed.

(** ** inspect_gltf.cjs *)

Lemma js_get_nonnull j k : j <> JNull -> exists v, js_get (JsJson j) k = Some v.
Proof. intros H. destruct j; cbn; try congruence; eexists; reflexivity. Qed.

Lemma named_node_lines_cons i node items :
  named_node_lines i (node :: items)
  = (if js_truthy (name_of node) then [NodeLine i (name_of node)] else [])
    ++ named_node_lines (S i) items.
Proof.
  unfold named_node_lines. cbn [List.length seq map combine filter fst snd].
  destruct (js_truthy (name_of node)); reflexivity.
Qed.

Lemma for_each_node_named : forall items i,
  Forall (fun n => n <> JNull) items ->
  for_each_node i items = named_node_lines i items.
Proof.
  induction items as [|node items IH]; intros i H; [reflexivity|].
  inversion H as [|? ? Hn Hrest]; subst.
  rewrite named_node_lines_cons. cbn [for_each_node].
  destruct (js_get_nonnull node "name" Hn) as [v Hv].
  assert (Hname : name_of node = v) by (unfold name_of; rewrite Hv; reflexivity).
  rewrite Hv, Hname, IH by exact Hrest. reflexivity.
Qed.

Lemma for_each_node_null : forall pre post i,
  Forall (fun n => n <> JNull) pre ->
  for_each_node i (pre ++ JNull :: post) = named_node_lines i pre ++ [CaughtError].
Proof.
  induction pre as [|node pre IH]; intros post i H; [reflexivity|].
  inversion H as [|? ? Hn Hrest]; subst.
  rewrite named_node_lines_cons. cbn [for_each_node app].
  destruct (js_get_nonnull node "name" Hn) as [v Hv].
  assert (Hname : name_of node = v) by (unfold name_of; rewrite Hv; reflexivity).
  rewrite Hv, Hname, IH by exact Hrest. rewrite app_assoc. reflexivity.
Qed.

(** X6. When the parsed file is an object whose [nodes] is an array without
    null entries, the script prints the array's length, then one line per
    node with a truthy [name], in order and with the node's index in the
    array. *)
Theorem inspect_lists_named_nodes ms items :
  assoc_last "nodes" ms = Some (JArr items) ->
  Forall (fun n => n <> JNull) items ->
  inspect_gltf (Some (JObj ms))
  = FoundNodes (JsLength (List.length items)) :: named_node_lines 0 items.
Proof.
  intros Hn Hitems. unfold inspect_gltf. cbn [js_get]. rewrite Hn.
  cbn. f_equal. apply for_each_node_named. exact Hitems.
Qed.

(** X7. A null entry in [nodes] stops the listing: after the length and the
    lines of the nodes before it, the script ends in its error report. *)
Theorem inspect_stops_at_null_node ms pre post :
  assoc_last "nodes" ms = Some (JArr (pre ++ JNull :: post)) ->
  Forall (fun n => n <> JNull) pre ->
  inspect_gltf (Some (JObj ms))
  = FoundNodes (JsLength (List.length (pre ++ JNull :: post)))
    :: named_node_lines 0 pre ++ [CaughtError].
Proof.
  intros Hn Hpre. unfold inspect_gltf. cbn [js_get]. rewrite Hn.
  cbn -[List.length]. f_equal. apply for_each_node_null. exact Hpre.
Qed.

(** X8. When the parsed value is not null and has no truthy [nodes] (no
    such key, or a falsy value, or a value that is not an object), the
    script prints only the "No 'nodes' property" line. *)
Theorem inspect_without_nodes j :
  j <> JNull ->
  (forall ms, j = JObj ms ->
     forall v, assoc_last "nodes" ms = Some v -> json_truthy v = false) ->
  inspect_gltf (Some j) = [NoNodesLine].
Proof.
  intros Hj Hf. destruct j as [| | | |items|ms]; try congruence;
    try reflexivity.
  unfold inspect_gltf. cbn [js_get].
  destruct (assoc_last "nodes" ms) as [v|] eqn:Ev; [|reflexivity].
  cbn [js_truthy]. rewrite (Hf ms eq_refl v Ev). reflexivity.
Qed.

(** X9. A file that cannot be read or parsed, or that parses to null, gives
    only the error report; a truthy [nodes] that is not an array gives the
    "Found" line and then the error report. *)
Theorem inspect_error_paths :
  inspect_gltf None = [CaughtError]
  /\ inspect_gltf (Some JNull) = [CaughtError]
  /\ forall ms v,
       assoc_last "nodes" ms = Some v -> json_truthy v = true ->
       (forall items, v <> JArr items) ->
       exists len, inspect_gltf (Some (JObj ms)) = [FoundNodes len; CaughtError].
Proof.
  split; [reflexivity|]. split; [reflexivity|].
  intros ms v Hn Ht Hna. unfold inspect_gltf. cbn [js_get]. rewrite Hn.
  cbn [js_truthy]. rewrite Ht.
  destruct v as [|b|x|s|items|ms']; try discriminate.
  - eexists. reflexivity.
  - eexists. reflexivity.
  - eexists. reflexivity.
  - exfalso. exact (Hna items eq_refl).
  - eexists. reflexivity.
Qed.

(** ** Gestures, buttons and the session, over the event model *)

Lemma rotate_move_two qe st t0 t1 : rotate_move qe [t0; t1] st = st.
Proof. unfold rotate_move. destruct (carModel st); reflexivity. Qed.

Lemma update_reticle_keeps s rs st :
  xr (update_reticle s rs st) = xr st
  /\ requests (observed (update_reticle s rs st)) = requests (observed st).
Proof.
  unfold update_reticle. destruct (hitTestSource st); [destruct rs|];
    split; reflexivity.
Qed.

Lemma listeners_requests_view st st' :
  xr_view st' = xr_view st ->
  end_listeners (xr st) = requests (observed st) ->
  end_listeners (xr st') = requests (observed st').
Proof.
  unfold xr_view. intros E. injection E as Hx _ _ Ho. rewrite Hx, Ho. auto.
Qed.

(** The 'end' listeners registered so far are exactly the requests issued. *)
Lemma listeners_requests_step qr eu qe st ev :
  end_listeners (xr st) = requests (observed st) ->
  end_listeners (xr (step qr eu qe st ev)) = requests (observed (step qr eu qe st ev)).
Proof.
  intros H. destruct ev; cbn [step].
  - unfold session_started. destruct (session (xr st)); exact H.
  - unfold session_ended. destruct (session (xr st)); [|exact H].
    destruct (existsb _ _); exact H.
  - destruct (session (xr st)) as [s|]; [|exact H]. unfold render_xr.
    destruct (update_reticle_keeps s results
                (if Bool.eqb (hitTestSourceRequested st) false
                 then request_hit_test_source s st else st)) as [Hx Hr].
    rewrite Hx, Hr.
    destruct (Bool.eqb _ _); [|exact H].
    unfold request_hit_test_source. unfold_setters. cbn. rewrite H. reflexivity.
  - unfold promise_resolved. destruct (nth_error _ _) as [[s|s]|]; try exact H.
    destruct (session (xr st)); [destruct (Nat.eqb _ _)|]; exact H.
  - exact H.
  - apply (listeners_requests_view st); [|exact H]. unfold onSelect. view_cases.
  - apply (listeners_requests_view st); [|exact H].
    unfold touchstart, rotate_start, pinch_start. view_cases.
  - apply (listeners_requests_view st); [|exact H].
    unfold touchmove, rotate_move, pinch_move. view_cases.
  - exact H.
  - apply (listeners_requests_view st); [|exact H]. unfold rotate_button. view_cases.
  - exact H.
Qed.

Lemma listeners_requests_run qr eu qe evs : forall st,
  end_listeners (xr st) = requests (observed st) ->
  end_listeners (xr (run qr eu qe st evs)) = requests (observed (run qr eu qe st evs)).
Proof.
  induction evs as [|ev evs IH]; intros st H; [exact H|].
  cbn [run fold_left]. apply IH. apply listeners_requests_step. exact H.
Qed.

(** X10. Touch events with neither one nor two fingers change nothing. *)
Theorem touch_ignores_other_finger_counts qe ts st :
  List.length ts <> 1 -> List.length ts <> 2 ->
  touchstart ts st = st /\ touchmove qe ts st = st.
Proof.
  intros H1 H2. unfold touchstart, rotate_start, pinch_start, touchmove,
    rotate_move, pinch_move.
  destruct ts as [|a [|b [|c l]]]; cbn in H1, H2; try lia;
    destruct (carModel st); split; reflexivity.
Qed.

(** X11. Before a model is loaded, selects, touches and the rotate buttons
    change nothing. *)
Theorem input_ignored_without_model qr eu qe st ev :
  carModel st = None ->
  match ev with
  | Select | TouchStart _ | TouchMove _ | TouchEnd _ | RotateButton _ =>
      step qr eu qe st ev = st
  | _ => True
  end.
Proof.
  intros H. destruct ev; cbn [step]; try exact I; try reflexivity.
  - unfold onSelect. rewrite H. destruct (visible (reticle st)); reflexivity.
  - unfold touchstart, rotate_start, pinch_start.
    destruct touches as [|a [|b [|c l]]]; rewrite ?H; try reflexivity;
      cbn; rewrite H; reflexivity.
  - unfold touchmove, rotate_move, pinch_move.
    destruct touches as [|a [|b [|c l]]]; rewrite ?H; try reflexivity;
      cbn; rewrite H; reflexivity.
  - unfold rotate_button. rewrite H. reflexivity.
Qed.

(** X12. A touch move never moves the car, the reticle or the session
    state.  With two fingers it changes neither the car's orientation nor
    the gesture baselines; with one finger it changes neither the scale nor
    the pinch baseline. *)
Theorem touchmove_effects qe ts st :
  option_map position (carModel (touchmove qe ts st))
    = option_map position (carModel st)
  /\ reticle (touchmove qe ts st) = reticle st
  /\ xr_view (touchmove qe ts st) = xr_view st
  /\ (List.length ts = 2 ->
      option_map (fun o => (quaternion o, rotation o)) (carModel (touchmove qe ts st))
        = option_map (fun o => (quaternion o, rotation o)) (carModel st)
      /\ touch (touchmove qe ts st) = touch st)
  /\ (List.length ts = 1 ->
      option_map scale (carModel (touchmove qe ts st)) = option_map scale (carModel st)
      /\ initialDistance (touch (touchmove qe ts st)) = initialDistance (touch st)
      /\ initialScale (touch (touchmove qe ts st)) = initialScale (touch st)).
Proof.
  unfold touchmove, rotate_move, pinch_move.
  destruct ts as [|a [|b [|c l]]]; destruct (carModel st) as [o|] eqn:E;
    try destruct (PrimFloat.ltb 0 (initialDistance (touch st)));
    cbn; rewrite ?E;
    repeat (first [ reflexivity | discriminate | progress intros | split ]).
Qed.

(** X13. The rotate buttons change only the car's yaw, to [y + 0.3] (left)
    or [y - 0.3] (right) in floating point: position, scale, pitch, roll,
    the gesture baselines, the reticle and the session state stay. *)
Theorem rotate_button_turns_yaw_only qe to_left st :
  touch (rotate_button qe to_left st) = touch st
  /\ reticle (rotate_button qe to_left st) = reticle st
  /\ xr_view (rotate_button qe to_left st) = xr_view st
  /\ option_map (fun o => (position o, scale o, ex (rotation o), ez (rotation o)))
       (carModel (rotate_button qe to_left st))
     = option_map (fun o => (position o, scale o, ex (rotation o), ez (rotation o)))
         (carModel st)
  /\ option_map (fun o => ey (rotation o)) (carModel (rotate_button qe to_left st))
     = option_map (fun o => if to_left then (ey (rotation o) + 0.3)%float
                            else (ey (rotation o) - 0.3)%float)
         (carModel st).
Proof.
  unfold rotate_button. destruct (carModel st) as [o|] eqn:E;
    cbn; rewrite ?E; repeat split; reflexivity.
Qed.

(** X14. Within one gesture, two-finger moves do not compound: a move
    applied after an earlier two-finger move gives the same state as applied
    alone, since the scale is always computed from the baseline. *)
Theorem pinch_moves_not_compounded qe st a b c d :
  touchmove qe [c; d] (touchmove qe [a; b] st) = touchmove qe [c; d] st.
Proof.
  unfold touchmove. rewrite !rotate_move_two.
  destruct (carModel st) as [o|] eqn:E.
  - destruct (PrimFloat.ltb 0 (initialDistance (touch st))) eqn:L.
    + assert (Hab : pinch_move [a; b] st
                    = set_carModel st (Some (set_scale o (multiplyScalar
                        (initialScale (touch st))
                        (touch_distance a b / initialDistance (touch st))%float))))
        by (unfold pinch_move; rewrite E, L; reflexivity).
      rewrite Hab. unfold pinch_move. cbn [carModel touch set_carModel].
      rewrite E, L. reflexivity.
    + assert (Hab : pinch_move [a; b] st = st)
        by (unfold pinch_move; rewrite E, L; reflexivity).
      rewrite Hab. reflexivity.
  - assert (Hab : pinch_move [a; b] st = st)
      by (unfold pinch_move; rewrite E; reflexivity).
    rewrite Hab. reflexivity.
Qed.

(** X15. Session, frame and promise events, and 'touchend', never change
    the car or the gesture baselines. *)
Theorem runtime_events_keep_model qr eu qe st ev :
  match ev with
  | SessionStart | SessionEnd | XRFrame _ | PromiseResolved _
  | PromiseRejected _ | TouchEnd _ =>
      carModel (step qr eu qe st ev) = carModel st
      /\ touch (step qr eu qe st ev) = touch st
  | _ => True
  end.
Proof.
  destruct ev; cbn [step]; try exact I.
  - unfold session_started. destruct (session (xr st)); split; reflexivity.
  - unfold session_ended. destruct (session (xr st)); [|split; reflexivity].
    destruct (existsb _ _); split; reflexivity.
  - destruct (session (xr st)) as [s|]; [|split; reflexivity].
    unfold render_xr, update_reticle.
    destruct (Bool.eqb _ _); unfold request_hit_test_source; unfold_setters;
      cbn; destruct (hitTestSource st); try destruct results;
      split; reflexivity.
  - unfold promise_resolved. destruct (nth_error _ _) as [[s|s]|];
      [destruct (session (xr st)); [destruct (Nat.eqb _ _)|] | |];
      split; reflexivity.
  - split; reflexivity.
  - split; reflexivity.
Qed.

(** X16. In every reachable state a cached hit-test source belongs to the
    running session: no source is cached while no session runs. *)
Theorem cached_source_in_running_session qr eu qe evs src :
  hitTestSource (run qr eu qe init_state evs) = Some src ->
  session (xr (run qr eu qe init_state evs)) = Some (source_session src).
Proof.
  intros H.
  exact (proj1 (inv_source _ (xr_inv_run qr eu qe evs init_state xr_inv_init) src H)).
Qed.

(** X17. In every reachable state, once a frame of the running session is
    rendered, a hit-test source has been requested for that session. *)
Theorem frame_follows_request qr eu qe evs rs :
  match session (xr (run qr eu qe init_state evs)) with
  | Some s =>
      In s (requests (observed
        (step qr eu qe (run qr eu qe init_state evs) (XRFrame rs))))
  | None => True
  end.
Proof.
  pose proof (xr_inv_run qr eu qe evs init_state xr_inv_init) as Hinv.
  pose proof (listeners_requests_run qr eu qe evs init_state eq_refl) as L.
  set (st := run qr eu qe init_state evs) in *.
  destruct (session (xr st)) as [s|] eqn:Hs; [|exact I].
  cbn [step]. rewrite Hs. unfold render_xr.
  destruct (hitTestSourceRequested st) eqn:El; cbn [Bool.eqb].
  - rewrite (proj2 (update_reticle_keeps s rs st)).
    destruct (inv_latch_set st Hinv El) as [s' [E Hin]].
    rewrite Hs in E. injection E as E. subst s'. rewrite <- L. exact Hin.
  - rewrite (proj2 (update_reticle_keeps s rs _)).
    unfold request_hit_test_source. unfold_setters. cbn.
    apply in_or_app. right. left. reflexivity.
Qed.

(** ** Sample inputs for the scene graph, the colour buttons and the glTF
    script *)

(** A car body, a text label, a ground shadow and a far-away plane. *)
Definition sample_tree : Node :=
  mkNode 0 "Sketchfab_model" 0 false false false NoMaterial
    [mkNode 1 "Body" 0.5 true false false
       (SingleMaterial (mkMaterial (Some "#1e293b"%string))) [];
     mkNode 2 "Text.023" 0 true false false
       (MaterialArray [mkMaterial (Some "#000000"%string); mkMaterial None]) [];
     mkNode 3 "ground_shadow" 0 true false false NoMaterial [];
     mkNode 4 "Plane.001" 80 true false false NoMaterial []].

Definition sample_buttons : list ColorButton :=
  [mkColorButton "#2563eb" true; mkColorButton "#1e293b" false;
   mkColorButton "#dc2626" false; mkColorButton "#f59e0b" false;
   mkColorButton "#ffffff" false].

Definition sample_page : Page := mkPage sample_buttons (Some sample_tree).

Definition sample_nodes : list json :=
  [JObj [("name"%string, JStr "Car")]; JObj [("mesh"%string, JNum 0)];
   JObj [("name"%string, JStr "Text.023")]].

Definition sample_gltf (nodes : list json) : list (string * json) :=
  [("asset"%string, JObj [("version"%string, JStr "2.0")]); ("nodes"%string, JArr nodes)].


Lemma color_click_activates_witness :
  2 < List.length (color_buttons sample_page)
  /\ map data_color (color_buttons (color_click 2 sample_page))
     = map data_color (color_buttons sample_page)
  /\ map active (color_buttons (color_click 2 sample_page))
     = map (fun j => Nat.eqb j 2) (seq 0 (List.length (color_buttons sample_page))).
Proof.
  split; [cbn; lia|]. apply color_click_activates. cbn. lia.
Defined.

Lemma inspect_lists_named_nodes_witness :
  assoc_last "nodes" (sample_gltf sample_nodes) = Some (JArr sample_nodes)
  /\ Forall (fun n => n <> JNull) sample_nodes
  /\ inspect_gltf (Some (JObj (sample_gltf sample_nodes)))
     = FoundNodes (JsLength (List.length sample_nodes))
       :: named_node_lines 0 sample_nodes
  /\ named_node_lines 0 sample_nodes
     = [NodeLine 0 (JsJson (JStr "Car")); NodeLine 2 (JsJson (JStr "Text.023"))].
Proof.
  assert (H1 : assoc_last "nodes" (sample_gltf sample_nodes) = Some (JArr sample_nodes))
    by (vm_compute; reflexivity).
  assert (H2 : Forall (fun n => n <> JNull) sample_nodes)
    by (repeat constructor; discriminate).
  split; [exact H1|]. split; [exact H2|]. split.
  - exact (inspect_lists_named_nodes _ _ H1 H2).
  - vm_compute. reflexivity.
Defined.

Lemma inspect_stops_at_null_node_witness :
  assoc_last "nodes" (sample_gltf ([JObj [("name"%string, JStr "Car")]] ++ JNull :: [JObj []]))
    = Some (JArr ([JObj [("name"%string, JStr "Car")]] ++ JNull :: [JObj []]))
  /\ Forall (fun n => n <> JNull) [JObj [("name"%string, JStr "Car")]]
  /\ inspect_gltf
       (Some (JObj (sample_gltf ([JObj [("name"%string, JStr "Car")]] ++ JNull :: [JObj []]))))
     = FoundNodes (JsLength 3)
       :: named_node_lines 0 [JObj [("name"%string, JStr "Car")]] ++ [CaughtError].
Proof.
  assert (H1 : assoc_last "nodes"
                 (sample_gltf ([JObj [("name"%string, JStr "Car")]] ++ JNull :: [JObj []]))
               = Some (JArr ([JObj [("name"%string, JStr "Car")]] ++ JNull :: [JObj []])))
    by (vm_compute; reflexivity).
  assert (H2 : Forall (fun n => n <> JNull) [JObj [("name"%string, JStr "Car")]])
    by (repeat constructor; discriminate).
  split; [exact H1|]. split; [exact H2|].
  exact (inspect_stops_at_null_node _ _ _ H1 H2).
Defined.

Lemma inspect_without_nodes_witness :
  JObj [("scenes"%string, JArr []); ("nodes"%string, JNull)] <> JNull
  /\ inspect_gltf (Some (JObj [("scenes"%string, JArr []); ("nodes"%string, JNull)])) = [NoNodesLine].
Proof.
  assert (H1 : JObj [("scenes"%string, JArr []); ("nodes"%string, JNull)] <> JNull) by discriminate.
  split; [exact H1|]. apply inspect_without_nodes; [exact H1|].
  intros ms E v Hv. injection E as <-. vm_compute in Hv.
  injection Hv as <-. reflexivity.
Defined.

Lemma touch_ignores_other_finger_counts_witness :
  List.length [mkTouch 10 0; mkTouch 20 0; mkTouch 30 0] <> 1
  /\ List.length [mkTouch 10 0; mkTouch 20 0; mkTouch 30 0] <> 2
  /\ touchstart [mkTouch 10 0; mkTouch 20 0; mkTouch 30 0]
       (sample_run [ModelLoaded sample_scene]) = sample_run [ModelLoaded sample_scene]
  /\ touchmove sample_quaternion_of_euler [mkTouch 10 0; mkTouch 20 0; mkTouch 30 0]
       (sample_run [ModelLoaded sample_scene]) = sample_run [ModelLoaded sample_scene].
Proof.
  split; [cbn; lia|]. split; [cbn; lia|].
  apply touch_ignores_other_finger_counts; cbn; lia.
Defined.

Lemma input_ignored_without_model_witness :
  carModel (sample_run [SessionStart]) = None
  /\ step sample_quaternion_of_rotation_matrix sample_euler_of_quaternion
       sample_quaternion_of_euler (sample_run [SessionStart])
       (TouchMove [mkTouch 100 0; mkTouch 200 0])
     = sample_run [SessionStart].
Proof.
  assert (H : carModel (sample_run [SessionStart]) = None) by (vm_compute; reflexivity).
  split; [exact H|].
  exact (input_ignored_without_model sample_quaternion_of_rotation_matrix
           sample_euler_of_quaternion sample_quaternion_of_euler
           (sample_run [SessionStart]) (TouchMove [mkTouch 100 0; mkTouch 200 0]) H).
Defined.

Lemma cached_source_in_running_session_witness :
  hitTestSource (sample_run tracking_events) = Some (mkSource 0)
  /\ session (xr (sample_run tracking_events)) = Some 0.
Proof.
  assert (H : hitTestSource (sample_run tracking_events) = Some (mkSource 0))
    by (vm_compute; reflexivity).
  split; [exact H|].
  exact (cached_source_in_running_session sample_quaternion_of_rotation_matrix
           sample_euler_of_quaternion sample_quaternion_of_euler tracking_events
           (mkSource 0) H).
Defined.

(** ** The clean-up as a pruning *)

Section Pruning.

Variable visit : string -> float -> bool -> bool -> bool -> bool * (bool * bool).

(** Whether the callback pushes node [k] to [toRemove]. *)
Definition flagged (k : Node) : bool :=
  fst (visit (node_name k) (node_pos_y k) (node_isMesh k) (node_castShadow k)
         (node_receiveShadow k)).

(** The clean-up read as a pruning: each node gets the callback's shadow
    flags, and every child subtree whose root the callback flags is dropped
    (the root itself has no parent and stays). *)
Fixpoint pruned_tree (n : Node) : Node :=
  match n with
  | mkNode i nm y m c r mt ks =>
      let '(_, (c', r')) := visit nm y m c r in
      mkNode i nm y m c' r' mt
        (flat_map (fun k => if flagged k then [] else [pruned_tree k]) ks)
  end.

End Pruning.

(** Every child whose identity is in [ids] is dropped, at every depth. *)
Fixpoint prune_ids (ids : list nat) (n : Node) : Node :=
  match n with
  | mkNode i nm y m c r mt ks =>
      mkNode i nm y m c r mt
        (flat_map (fun k => if existsb (Nat.eqb (node_id k)) ids then []
                            else [prune_ids ids k]) ks)
  end.

Lemma flat_map_filter_map {A B} (p : A -> bool) (f : A -> B) l :
  flat_map (fun x => if p x then [] else [f x]) l = map f (filter (fun x => negb (p x)) l).
Proof. induction l as [|a l IH]; cbn; [reflexivity|]. destruct (p a); cbn; congruence. Qed.

Lemma filter_map_comm {A B} (p : B -> bool) (f : A -> B) l :
  filter p (map f l) = map f (filter (fun x => p (f x)) l).
Proof. induction l as [|a l IH]; cbn; [reflexivity|]. destruct (p (f a)); cbn; congruence. Qed.

Lemma filter_filter_and {A} (p q : A -> bool) l :
  filter p (filter q l) = filter (fun x => q x && p x) l.
Proof.
  induction l as [|a l IH]; cbn; [reflexivity|].
  destruct (q a); cbn; [destruct (p a); cbn|]; congruence.
Qed.

Lemma prune_ids_id ids n : node_id (prune_ids ids n) = node_id n.
Proof. destruct n. reflexivity. Qed.

Lemma prune_ids_nil : forall n, prune_ids [] n = n.
Proof.
  intros n. induction n as [i nm y m c r mt ks IH] using Node_ind'.
  cbn [prune_ids existsb]. f_equal.
  induction IH as [|k ks Hk _ IHks]; cbn; [reflexivity|]. rewrite Hk, IHks. reflexivity.
Qed.

Lemma remove_prune_ids id : forall n ids,
  remove_from_parent id (prune_ids ids n) = prune_ids (ids ++ [id]) n.
Proof.
  intros n. induction n as [i nm y m c r mt ks IH] using Node_ind'. intros ids.
  cbn [prune_ids remove_from_parent]. f_equal.
  rewrite !flat_map_filter_map, map_map.
  rewrite (map_ext_in _ (prune_ids (ids ++ [id]))).
  2:{ intros k Hk. apply filter_In in Hk as [Hk _].
      rewrite Forall_forall in IH. apply IH. exact Hk. }
  rewrite filter_map_comm, filter_filter_and.
  f_equal. apply filter_ext. intros k. rewrite prune_ids_id, existsb_app.
  cbn. rewrite orb_false_r, negb_orb. reflexivity.
Qed.

Lemma remove_all_prune : forall ids t,
  fold_left (fun t id => remove_from_parent id t) ids t = prune_ids ids t.
Proof.
  intros ids t. rewrite <- (prune_ids_nil t) at 1.
  change ids with ([] ++ ids) at 2. generalize (@nil nat) as acc.
  revert t. induction ids as [|a ids IH]; intros t acc.
  - rewrite app_nil_r. reflexivity.
  - cbn [fold_left]. rewrite remove_prune_ids, IH, <- app_assoc. reflexivity.
Qed.

Lemma in_descendants_all k n : In k (descendants n) -> In k (all_nodes n).
Proof. destruct n. intros H. right. exact H. Qed.

Lemma child_nodes_descendants k ks i nm y m c r mt :
  In k ks -> forall k', In k' (all_nodes k) ->
  In k' (descendants (mkNode i nm y m c r mt ks)).
Proof. intros Hk k' Hk'. apply in_flat_map. exists k. auto. Qed.

Lemma traverse_removes visit : forall n,
  snd (cleanup_traverse visit n) = map node_id (filter (flagged visit) (all_nodes n)).
Proof.
  intros n. induction n as [i nm y m c r mt ks IH] using Node_ind'.
  cbn [cleanup_traverse all_nodes node_children].
  destruct (visit nm y m c r) as [push [c' r']] eqn:Ev. cbn [snd].
  cbn [filter]. unfold flagged at 1. cbn [node_name node_pos_y node_isMesh
    node_castShadow node_receiveShadow]. rewrite Ev. cbn [fst].
  assert (Hks : flat_map snd (map (cleanup_traverse visit) ks)
                = map node_id (filter (flagged visit) (flat_map all_nodes ks))).
  { induction IH as [|k ks Hk _ IHks]; cbn; [reflexivity|].
    rewrite Hk, IHks, filter_app, map_app. reflexivity. }
  rewrite Hks. destruct push; reflexivity.
Qed.

Lemma traverse_prune visit : forall n ids,
  (forall k, In k (descendants n) ->
     existsb (Nat.eqb (node_id k)) ids = flagged visit k) ->
  prune_ids ids (fst (cleanup_traverse visit n)) = pruned_tree visit n.
Proof.
  intros n. induction n as [i nm y m c r mt ks IH] using Node_ind'. intros ids H.
  cbn [cleanup_traverse pruned_tree].
  destruct (visit nm y m c r) as [push [c' r']] eqn:Ev. cbn [fst prune_ids].
  f_equal.
  assert (Hch : forall k, In k ks ->
            existsb (Nat.eqb (node_id k)) ids = flagged visit k
            /\ forall k', In k' (descendants k) ->
                 existsb (Nat.eqb (node_id k')) ids = flagged visit k').
  { intros k Hk. split.
    - apply H. apply (child_nodes_descendants k ks i nm y m c r mt Hk).
      destruct k; left; reflexivity.
    - intros k' Hk'. apply H. apply (child_nodes_descendants k ks i nm y m c r mt Hk).
      apply in_descendants_all. exact Hk'. }
  clear H Ev. induction IH as [|k ks Hk _ IHks]; [reflexivity|].
  cbn [map flat_map].
  destruct (Hch k (or_introl eq_refl)) as [Hflag Hdesc].
  rewrite (cleanup_traverse_root visit k), Hflag, Hk by exact Hdesc.
  rewrite IHks by (intros k' Hk'; apply Hch; right; exact Hk').
  reflexivity.
Qed.

Lemma NoDup_map_inj {A B} (f : A -> B) : forall l x y,
  NoDup (map f l) -> In x l -> In y l -> f x = f y -> x = y.
Proof.
  induction l as [|a l IH]; intros x y Hnd Hx Hy Hf; [contradiction|].
  inversion Hnd as [|? ? Hnot Hnd']; subst.
  destruct Hx as [<- | Hx], Hy as [<- | Hy]; auto.
  - exfalso. apply Hnot. rewrite Hf. apply in_map. exact Hy.
  - exfalso. apply Hnot. rewrite <- Hf. apply in_map. exact Hx.
Qed.

Lemma cleanup_with_pruned visit root :
  NoDup (map node_id (all_nodes root)) ->
  cleanup_with visit root = pruned_tree visit root.
Proof.
  intros Hnd. unfold cleanup_with.
  pose proof (traverse_removes visit root) as Hrem.
  pose proof (traverse_prune visit root) as Hpr.
  destruct (cleanup_traverse visit root) as [root' rem]. cbn [fst snd] in *.
  rewrite remove_all_prune. apply Hpr. intros k Hk.
  apply in_descendants_all in Hk. subst rem.
  destruct (flagged visit k) eqn:F.
  - apply existsb_exists. exists (node_id k). split; [|apply Nat.eqb_refl].
    apply in_map. apply filter_In. auto.
  - destruct (existsb _ _) eqn:Ex; [|reflexivity].
    apply existsb_exists in Ex as [x [Hx Hxk]]. apply Nat.eqb_eq in Hxk. subst x.
    apply in_map_iff in Hx as [k' [Hid Hk']]. apply filter_In in Hk' as [Hk' F'].
    rewrite (NoDup_map_inj node_id _ k' k Hnd Hk' Hk Hid) in F'. congruence.
Qed.

(** X18. When the model's nodes are distinct objects, the clean-up (of
    main.js, and of part_000) is exactly a pruning: every node gets the
    callback's shadow flags, and each child subtree whose root the callback
    flags is dropped, with everything below it; nothing else is removed. *)
Theorem cleanup_is_pruning root :
  NoDup (map node_id (all_nodes root)) ->
  cleanup_model root = pruned_tree cleanup_visit root
  /\ Part000.cleanup_model root = pruned_tree Part000.cleanup_visit root.
Proof.
  intros Hnd. split; apply cleanup_with_pruned; exact Hnd.
Qed.

(** On [sample_tree], main.js keeps the body only (with shadows); part_000
    also keeps the ground shadow. *)
Lemma cleanup_is_pruning_witness :
  NoDup (map node_id (all_nodes sample_tree))
  /\ cleanup_model sample_tree = pruned_tree cleanup_visit sample_tree
  /\ Part000.cleanup_model sample_tree = pruned_tree Part000.cleanup_visit sample_tree
  /\ cleanup_model sample_tree
     = mkNode 0 "Sketchfab_model" 0 false false false NoMaterial
         [mkNode 1 "Body" 0.5 true true true
            (SingleMaterial (mkMaterial (Some "#1e293b"%string))) []]
  /\ Part000.cleanup_model sample_tree
     = mkNode 0 "Sketchfab_model" 0 false false false NoMaterial
         [mkNode 1 "Body" 0.5 true true true
            (SingleMaterial (mkMaterial (Some "#1e293b"%string))) [];
          mkNode 3 "ground_shadow" 0 true true true NoMaterial []].
Proof.
  assert (H : NoDup (map node_id (all_nodes sample_tree)))
    by (vm_compute; repeat constructor; cbn; lia).
  split; [exact H|].
  destruct (cleanup_is_pruning sample_tree H) as [H1 H2].
  split; [exact H1|]. split; [exact H2|].
  split; vm_compute; reflexivity.
Defined.

(** ** The /Text/i rule *)

Lemma occurs_in_app_l eqc a s p :
  occurs_in eqc s p = true -> occurs_in eqc (a ++ s) p = true.
Proof.
  intros H. induction a as [|ch a IH]; [exact H|].
  cbn [String.append occurs_in]. rewrite IH. apply orb_true_r.
Qed.

(** "text" with each letter upper or lower case. *)
Definition text_variant (c1 c2 c3 c4 : bool) : string :=
  String (if c1 then "T" else "t") (String (if c2 then "E" else "e")
    (String (if c3 then "X" else "x") (String (if c4 then "T" else "t") EmptyString))).

(** X19. A node whose name contains "text" in any mix of upper and lower
    case, anywhere (as in "Texture" or "Context"), is flagged by the
    clean-up, in main.js and in part_000. *)
Theorem text_names_flagged a b c1 c2 c3 c4 y m c r :
  fst (cleanup_visit (a ++ text_variant c1 c2 c3 c4 ++ b) y m c r) = true
  /\ fst (Part000.cleanup_visit (a ++ text_variant c1 c2 c3 c4 ++ b) y m c r) = true.
Proof.
  assert (H : matches_Text_i (a ++ text_variant c1 c2 c3 c4 ++ b) = true).
  { unfold matches_Text_i. apply occurs_in_app_l.
    destruct c1, c2, c3, c4; reflexivity. }
  unfold cleanup_visit, Part000.cleanup_visit. rewrite H. split; reflexivity.
Qed.
